(** * Money Market Fund analyzer: the projection engine of [mmf_analyzer.py]

    A shallow embedding of the analyzer's engine and the properties its
    specification states about it.

    Modelling conventions.
    - A Python [Decimal] is a pair of an integer coefficient (carrying the
      sign) and an integer exponent; its value is [coef * 10 ^ dexp].  Every
      arithmetic operation computes the exact result and then rounds it to
      the context precision of 28 significant digits with ROUND_HALF_EVEN,
      as the default decimal context does.  The exponent limits of the
      context ([Emin], [Emax] = -/+ 999999), the special values (NaN,
      infinities) and the sign of a zero are not modelled.
    - The numeric entries of the parameter dictionary are floats that the
      engine reads only through [Decimal(str(x))]; a parameter is modelled by
      that decimal.  The final [float(...)] conversions of the totals are not
      modelled: a projection result keeps the decimal accumulators.
    - An exception is a value of [exn]; code that may raise returns a
      [result]. *)

From Stdlib Require Import ZArith QArith Qround Qabs Qpower.
From Stdlib Require Import List String Ascii Bool Lia Lqa.
From Stdlib Require Import DecimalString.
Import ListNotations.

#[local] Open Scope list_scope.
#[local] Open Scope Z_scope.

(** ** Exceptions and results *)

Inductive exn : Type :=
| ValueError (msg : string)
| TypeError (msg : string)
| OverflowError (msg : string)
| InvalidOperation.

(** [str(e)] for an exception [e]. *)
Definition str_exn (e : exn) : string :=
  match e with
  | ValueError m | TypeError m | OverflowError m => m
  | InvalidOperation => "[<class 'decimal.InvalidOperation'>]"
  end.

Inductive result (A : Type) : Type :=
| Ok (a : A)
| Err (e : exn).

Arguments Ok {A} a.
Arguments Err {A} e.

Definition bind {A B : Type} (m : result A) (f : A -> result B) : result B :=
  match m with
  | Ok a => f a
  | Err e => Err e
  end.

Notation "x <- m ;; k" := (bind m (fun x => k))
  (at level 61, m at next level, right associativity).

Definition is_ok {A : Type} (m : result A) : bool :=
  match m with Ok _ => true | Err _ => false end.

(** [str(n)] for an integer. *)
Definition str_int (n : Z) : string := NilZero.string_of_int (Z.to_int n).

(** ** Decimal arithmetic at the default context *)

Module PyDecimal.

Record decimal : Type := Dec { coef : Z; dexp : Z }.

(** [getcontext().prec] *)
Definition prec : Z := 28.

Definition of_int (n : Z) : decimal := Dec n 0.

Fixpoint digits_fuel (fuel : nat) (n : Z) : Z :=
  match fuel with
  | O => 1
  | S f => if n <? 10 then 1 else 1 + digits_fuel f (n / 10)
  end.

(** The number of decimal digits of the coefficient ([len(self._int)]);
    the coefficient zero has one digit. *)
Definition ndigits (c : Z) : Z :=
  digits_fuel (Z.to_nat (Z.log2 (Z.abs c))) (Z.abs c).

(** [n / d] rounded to the nearest integer, ties to the even one
    ([0 <= n], [0 < d]). *)
Definition div_half_even (n d : Z) : Z :=
  let q := n / d in
  match 2 * (n mod d) ?= d with
  | Lt => q
  | Gt => q + 1
  | Eq => if Z.even q then q else q + 1
  end.

(** [n / d] rounded to the nearest integer, ties away from zero
    ([0 <= n], [0 < d]). *)
Definition div_half_up (n d : Z) : Z :=
  if d <=? 2 * (n mod d) then n / d + 1 else n / d.

(** [Decimal._fix]: round to the context precision. *)
Definition fix_ (d : decimal) : decimal :=
  let n := ndigits (coef d) in
  if n <=? prec then d
  else
    let k := n - prec in
    let m := div_half_even (Z.abs (coef d)) (10 ^ k) in
    if prec <? ndigits m
    then Dec (Z.sgn (coef d) * (m / 10)) (dexp d + k + 1)
    else Dec (Z.sgn (coef d) * m) (dexp d + k).

Definition dneg (a : decimal) : decimal := Dec (- coef a) (dexp a).

(** [a + b]: the exact sum at the smaller exponent, then rounded. *)
Definition dadd (a b : decimal) : decimal :=
  let e := Z.min (dexp a) (dexp b) in
  fix_ (Dec (coef a * 10 ^ (dexp a - e) + coef b * 10 ^ (dexp b - e)) e).

Definition dsub (a b : decimal) : decimal := dadd a (dneg b).

Definition dmul (a b : decimal) : decimal :=
  fix_ (Dec (coef a * coef b) (dexp a + dexp b)).

(** The loop of an exact division: drop trailing zeros while the
    exponent is below the ideal one. *)
Fixpoint strip_zeros (fuel : nat) (c e : Z) : decimal :=
  match fuel with
  | O => Dec c e
  | S f => if c mod 10 =? 0 then strip_zeros f (c / 10) (e + 1) else Dec c e
  end.

(** [a / b].  The quotient is computed to [prec + 1] or [prec + 2] digits;
    when the division is inexact a last digit 0 or 5 is bumped, so that the
    final rounding sees on which side of a tie the quotient lies.  Python
    raises for a zero divisor; the analyzer divides by non-zero literals
    and by a total it has tested to be non-zero, and [ddiv] returns zero
    in that case. *)
Definition ddiv (a b : decimal) : decimal :=
  if coef b =? 0 then Dec 0 0
  else if coef a =? 0 then fix_ (Dec 0 (dexp a - dexp b))
  else
    let sign := Z.sgn (coef a) * Z.sgn (coef b) in
    let shift := ndigits (coef b) - ndigits (coef a) + prec + 1 in
    let e := dexp a - dexp b - shift in
    let n := if 0 <=? shift then Z.abs (coef a) * 10 ^ shift
             else Z.abs (coef a) in
    let d := if 0 <=? shift then Z.abs (coef b)
             else Z.abs (coef b) * 10 ^ (- shift) in
    let q := n / d in
    if n mod d =? 0 then
      let s := strip_zeros (Z.to_nat shift) q e in
      fix_ (Dec (sign * coef s) (dexp s))
    else
      fix_ (Dec (sign * (if q mod 5 =? 0 then q + 1 else q)) e).

(** [Decimal._rescale(e, ROUND_HALF_UP)] *)
Definition rescale_half_up (d : decimal) (e : Z) : decimal :=
  if coef d =? 0 then Dec 0 e
  else if e <=? dexp d then Dec (coef d * 10 ^ (dexp d - e)) e
  else Dec (Z.sgn (coef d)
            * div_half_up (Z.abs (coef d)) (10 ^ (e - dexp d))) e.

(** [d.quantize(q, rounding=ROUND_HALF_UP)]: only the exponent of the
    quantum [q] matters. *)
Definition quantize_half_up (d q : decimal) : result decimal :=
  if coef d =? 0 then Ok (fix_ (Dec 0 (dexp q)))
  else if prec <? (dexp d + ndigits (coef d) - 1) - dexp q + 1
  then Err InvalidOperation
  else
    let ans := rescale_half_up d (dexp q) in
    if prec <? ndigits (coef ans) then Err InvalidOperation
    else Ok (fix_ ans).

(** Comparison aligns the two coefficients at the smaller exponent. *)
Definition dcompare (a b : decimal) : comparison :=
  let e := Z.min (dexp a) (dexp b) in
  (coef a * 10 ^ (dexp a - e)) ?= (coef b * 10 ^ (dexp b - e)).

Definition dltb (a b : decimal) : bool :=
  match dcompare a b with Lt => true | _ => false end.

Definition dleb (a b : decimal) : bool :=
  match dcompare a b with Gt => false | _ => true end.

Definition deqb (a b : decimal) : bool :=
  match dcompare a b with Eq => true | _ => false end.

(** [bool(d)] *)
Definition truthy (d : decimal) : bool := negb (coef d =? 0).

(** The rational number a decimal denotes. *)
Definition dec_value (d : decimal) : Q :=
  (inject_Z (coef d) * 10 ^ dexp d)%Q.

End PyDecimal.

Import PyDecimal.

Declare Scope dec_scope.
Delimit Scope dec_scope with dec.
Infix "+" := dadd : dec_scope.
Infix "-" := dsub : dec_scope.
Infix "*" := dmul : dec_scope.
Infix "/" := ddiv : dec_scope.

(** ** Calendar dates ([datetime.date], [calendar.monthrange]) *)

Module Calendar.

Record date : Type := mkdate { year : Z; month : Z; day : Z }.

Definition MINYEAR : Z := 1.
Definition MAXYEAR : Z := 9999.

(** [calendar.isleap] *)
Definition isleap (y : Z) : bool :=
  (y mod 4 =? 0) && (negb (y mod 100 =? 0) || (y mod 400 =? 0)).

(** [calendar.mdays] *)
Definition mdays (m : Z) : Z :=
  match m with
  | 1 => 31 | 2 => 28 | 3 => 31 | 4 => 30 | 5 => 31 | 6 => 30
  | 7 => 31 | 8 => 31 | 9 => 30 | 10 => 31 | 11 => 30 | 12 => 31
  | _ => 0
  end.

(** [calendar.monthrange(y, m)[1]], for a month in 1..12. *)
Definition monthrange_days (y m : Z) : Z :=
  mdays m + (if (m =? 2) && isleap y then 1 else 0).

(** The constructor [datetime.date(y, m, d)] and its range checks.  The
    year is first converted to a C [int] (through a C [long] of 64 bits),
    which fails with an [OverflowError] before any range is looked at. *)
Definition date_new (y m d : Z) : result date :=
  if (y <? - 2 ^ 63) || (2 ^ 63 - 1 <? y)
  then Err (OverflowError "Python int too large to convert to C long")
  else if 2 ^ 31 - 1 <? y
  then Err (OverflowError "signed integer is greater than maximum")
  else if y <? - 2 ^ 31
  then Err (OverflowError "signed integer is less than minimum")
  else if (y <? MINYEAR) || (MAXYEAR <? y)
  then Err (ValueError ("year " ++ str_int y ++ " is out of range"))
  else if (m <? 1) || (12 <? m)
  then Err (ValueError "month must be in 1..12")
  else if (d <? 1) || (monthrange_days y m <? d)
  then Err (ValueError "day is out of range for month")
  else Ok (mkdate y m d).

Definition valid_date (d : date) : Prop :=
  MINYEAR <= year d <= MAXYEAR /\ 1 <= month d <= 12
  /\ 1 <= day d <= monthrange_days (year d) (month d).

(** The day after [d]; there is none after 9999-12-31. *)
Definition next_day (d : date) : result date :=
  if day d <? monthrange_days (year d) (month d)
  then Ok (mkdate (year d) (month d) (day d + 1))
  else if month d <? 12 then Ok (mkdate (year d) (month d + 1) 1)
  else if year d <? MAXYEAR then Ok (mkdate (year d + 1) 1 1)
  else Err (OverflowError "date value out of range").

(** [d + datetime.timedelta(days=k)] for [0 <= k]. *)
Fixpoint date_add_days (d : date) (k : nat) : result date :=
  match k with
  | O => Ok d
  | S k' => d' <- next_day d ;; date_add_days d' k'
  end.

End Calendar.

Import Calendar.

(** ** The data model *)

Record Fund : Type := mkFund {
  name : string;
  rate : decimal;
  mgt_fee : decimal;
  minimum_investment : decimal
}.

(** The values a caller may pass to the [Fund] constructor, as far as
    [__post_init__] tells them apart. *)
Inductive pyval : Type :=
| PyNone
| PyStr (s : string)
| PyInt (n : Z)
| PyDec (d : decimal).

(** [bool(v)], written [not v] in the source. *)
Definition py_truthy (v : pyval) : bool :=
  match v with
  | PyNone => false
  | PyStr s => negb (String.eqb s "")
  | PyInt n => negb (n =? 0)
  | PyDec d => truthy d
  end.

(** The fields that [__post_init__] reaches with a comparison are decimals
    by then: the [isinstance] test comes first. *)
Definition check_decimal (v : pyval) (bad : decimal -> bool) : option decimal :=
  if negb (py_truthy v) then None
  else match v with
       | PyDec d => if bad d then None else Some d
       | _ => None
       end.

Definition Decimal_0 : decimal := of_int 0.

(** [Fund(name, rate, mgt_fee, minimum_investment)]: the dataclass
    constructor followed by [Fund.__post_init__]. *)
Definition Fund_new (name rate mgt_fee minimum_investment : pyval)
  : result Fund :=
  match name with
  | PyStr n =>
      if negb (py_truthy name)
      then Err (TypeError "Fund name must be a non-empty string")
      else
        match check_decimal rate (fun d => dleb d Decimal_0) with
        | None => Err (ValueError ("Invalid rate for fund " ++ n))
        | Some r =>
            match check_decimal mgt_fee (fun d => dltb d Decimal_0) with
            | None => Err (ValueError ("Invalid management fee for fund " ++ n))
            | Some f =>
                match check_decimal minimum_investment
                        (fun d => dltb d Decimal_0) with
                | None =>
                    Err (ValueError ("Invalid minimum investment for fund " ++ n))
                | Some m => Ok (mkFund n r f m)
                end
            end
        end
  | _ => Err (TypeError "Fund name must be a non-empty string")
  end.

(** The parameter dictionary.  [investment_period_entry] is the float
    stored under ["investment_period"], a rational number; the engine reads
    it through [int(...)], the validation compares it with zero as it is. *)
Record Params : Type := mkParams {
  initial_capital : decimal;
  monthly_contribution : decimal;
  investment_period_entry : Q;
  withholding_tax : decimal;
  include_fees : bool;
  reinvest_dividends : bool;
  start_date : date
}.

(** [int(x)] for a float [x]: truncation towards zero. *)
Definition int_of_float (x : Q) : Z := Z.quot (Qnum x) (Z.pos (Qden x)).

(** [int(params["investment_period"])] *)
Definition investment_period (params : Params) : Z :=
  int_of_float (investment_period_entry params).

(** One entry of [daily_balances]. *)
Record DayEntry : Type := mkDay {
  de_date : date;
  de_balance : decimal;
  de_interest : decimal
}.

(** The dictionary [calculate_monthly_returns] returns. *)
Record MonthResult : Type := mkMonth {
  mr_balance : decimal;
  mr_interest : decimal;
  mr_fee : decimal;
  mr_daily_balances : list DayEntry
}.

(** The label ["%B %Y"] of a month, kept as the pair it is printed from. *)
Definition month_label : Type := (Z * Z)%type.

(** The dictionary [calculate_returns] returns, before the conversion of
    its totals to floats. *)
Record Projection : Type := mkProjection {
  final_balance : decimal;
  total_interest : decimal;
  total_fees : decimal;
  total_contribution : decimal;
  monthly_balances : list (month_label * decimal);
  daily_details : list DayEntry;
  net_return_percent : decimal
}.

(** ** The analyzer *)

Module MMFAnalyzer.

(** [_get_default_funds] *)
Definition default_funds : list Fund :=
  [ mkFund "My first example fund" (Dec 1691 (-2)) (Dec 85 (-2)) (Dec 1000 0);
    mkFund "My second example fund" (Dec 1686 (-2)) (Dec 90 (-2)) (Dec 100 0) ].

(** [add_months] *)
Definition add_months (d : date) (months : Z) : result date :=
  let month0 := month d - 1 + months in
  let year := year d + month0 / 12 in
  let month := month0 mod 12 + 1 in
  let day := Z.min (day d) (monthrange_days year month) in
  date_new year month day.

(** [get_month_days] *)
Definition get_month_days (d : date) : Z :=
  monthrange_days (year d) (month d).

(** [get_month_name] *)
Definition get_month_name (d : date) : month_label := (month d, year d).

(** [calculate_daily_interest] *)
Definition calculate_daily_interest
    (balance daily_rate withholding_tax : decimal) : decimal :=
  let daily_interest := (balance * daily_rate)%dec in
  (daily_interest * (of_int 1 - withholding_tax / of_int 100))%dec.

(** [calculate_management_fee] *)
Definition calculate_management_fee
    (opening_balance closing_balance mgt_fee_rate : decimal)
  : result decimal :=
  let average_balance := ((opening_balance + closing_balance) / of_int 2)%dec in
  let monthly_fee :=
    ((average_balance * mgt_fee_rate / of_int 100) / of_int 12)%dec in
  quantize_half_up monthly_fee (Dec 1 (-2)).

(** The state of the day loop of [calculate_monthly_returns]:
    [balance], [month_interest], [daily_balances]. *)
Definition day_state : Type := (decimal * decimal * list DayEntry)%type.

(** One iteration of [for day in range(days_in_month)]. *)
Definition day_step (current_date : date) (daily_rate withholding_tax : decimal)
    (st : day_state) (day : nat) : result day_state :=
  let '(balance, month_interest, daily_balances) := st in
  let daily_interest :=
    calculate_daily_interest balance daily_rate withholding_tax in
  let balance := (balance + daily_interest)%dec in
  let month_interest := (month_interest + daily_interest)%dec in
  d <- date_add_days current_date day ;;
  Ok (balance, month_interest, daily_balances ++ [mkDay d balance daily_interest]).

Fixpoint day_loop (current_date : date) (daily_rate withholding_tax : decimal)
    (days : list nat) (st : day_state) : result day_state :=
  match days with
  | [] => Ok st
  | day :: rest =>
      st' <- day_step current_date daily_rate withholding_tax st day ;;
      day_loop current_date daily_rate withholding_tax rest st'
  end.

(** [calculate_monthly_returns].  [Decimal(str(fund.rate))] is
    [fund.rate] again, a decimal being printed in full. *)
Definition calculate_monthly_returns (fund : Fund) (params : Params)
    (current_date : date) (month : Z) (starting_balance : decimal)
  : result MonthResult :=
  let days_in_month := get_month_days current_date in
  let daily_rate := (rate fund / of_int 365 / of_int 100)%dec in
  let withholding_tax := withholding_tax params in
  let opening_balance := starting_balance in
  let balance :=
    if 0 <? month then (starting_balance + monthly_contribution params)%dec
    else starting_balance in
  st <- day_loop current_date daily_rate withholding_tax
          (seq 0 (Z.to_nat days_in_month)) (balance, Decimal_0, []) ;;
  let '(balance, month_interest, daily_balances) := st in
  if include_fees params then
    monthly_fee <- calculate_management_fee opening_balance balance
                     (mgt_fee fund) ;;
    Ok (mkMonth (balance - monthly_fee)%dec month_interest monthly_fee
          daily_balances)
  else Ok (mkMonth balance month_interest Decimal_0 daily_balances).

(** The state of the month loop of [calculate_returns]. *)
Record month_state : Type := mkState {
  st_balance : decimal;
  st_total_interest : decimal;
  st_total_fees : decimal;
  st_total_contribution : decimal;
  st_current_date : date;
  st_monthly_balances : list (month_label * decimal);
  st_daily_details : list DayEntry
}.

(** One iteration of [for month in range(int(params["investment_period"]))]. *)
Definition month_step (fund : Fund) (params : Params)
    (st : month_state) (month : nat) : result month_state :=
  monthly_result <- calculate_monthly_returns fund params
                      (st_current_date st) (Z.of_nat month) (st_balance st) ;;
  let balance := mr_balance monthly_result in
  let total_interest := (st_total_interest st + mr_interest monthly_result)%dec in
  let total_fees := (st_total_fees st + mr_fee monthly_result)%dec in
  let total_contribution :=
    if 0 <? Z.of_nat month
    then (st_total_contribution st + monthly_contribution params)%dec
    else st_total_contribution st in
  current_date <- add_months (st_current_date st) 1 ;;
  Ok (mkState balance total_interest total_fees total_contribution
        current_date
        (st_monthly_balances st ++ [(get_month_name current_date, balance)])
        (st_daily_details st ++ mr_daily_balances monthly_result)).

Fixpoint month_loop (fund : Fund) (params : Params)
    (months : list nat) (st : month_state) : result month_state :=
  match months with
  | [] => Ok st
  | month :: rest =>
      st' <- month_step fund params st month ;;
      month_loop fund params rest st'
  end.

Definition initial_state (params : Params) : month_state :=
  let balance := initial_capital params in
  mkState balance Decimal_0 Decimal_0 (initial_capital params)
    (start_date params)
    [(get_month_name (start_date params), balance)] [].

(** The body of the [try] block of [calculate_returns]. *)
Definition calculate_returns_try (fund : Fund) (params : Params)
  : result Projection :=
  st <- month_loop fund params
          (seq 0 (Z.to_nat (investment_period params)))
          (initial_state params) ;;
  let balance := st_balance st in
  let total_contribution := st_total_contribution st in
  let net_return :=
    if truthy total_contribution
    then ((balance - total_contribution) / total_contribution * of_int 100)%dec
    else Decimal_0 in
  Ok (mkProjection balance (st_total_interest st) (st_total_fees st)
        total_contribution (st_monthly_balances st) (st_daily_details st)
        net_return).

(** [calculate_returns]: the [except Exception] clause re-raises any
    failure as a [ValueError] naming the fund. *)
Definition calculate_returns (fund : Fund) (params : Params)
  : result Projection :=
  match calculate_returns_try fund params with
  | Ok r => Ok r
  | Err e =>
      Err (ValueError ("Error calculating returns for " ++ name fund
                       ++ ": " ++ str_exn e))
  end.

(** What [validate_parameters] prints or raises about minimum
    investments.  The amounts are kept as decimals; the source formats
    them with [:,.2f]. *)
Inductive validation_outcome : Type :=
| RaisedValueError (msg : string)
| RaisedBelowMinimum (initial_capital lowest : decimal) (lowest_name : option string)
| PrintedNotes (excluded : list (string * decimal)).

(** [min(fund.minimum_investment for fund in funds)] over a non-empty
    list: the first of the smallest. *)
Fixpoint min_investment_from (m : decimal) (funds : list Fund) : decimal :=
  match funds with
  | [] => m
  | f :: rest =>
      min_investment_from
        (if dltb (minimum_investment f) m then minimum_investment f else m)
        rest
  end.

(** [validate_parameters] *)
Definition validate_parameters (funds : list Fund) (params : Params)
  : validation_outcome :=
  if dleb (initial_capital params) Decimal_0
  then RaisedValueError "Initial capital must be positive"
  else if dltb (monthly_contribution params) Decimal_0
  then RaisedValueError "Monthly contribution cannot be negative"
  else if Qle_bool (investment_period_entry params) 0
  then RaisedValueError "Investment period must be positive"
  else if negb (dleb Decimal_0 (withholding_tax params)
                && dleb (withholding_tax params) (of_int 100))
  then RaisedValueError "Withholding tax must be between 0 and 100"
  else
    let initial_capital := initial_capital params in
    let available_funds :=
      filter (fun fund => dleb (minimum_investment fund) initial_capital) funds in
    match available_funds with
    | [] =>
        match funds with
        | [] => RaisedValueError "min() arg is an empty sequence"
        | f :: rest =>
            let min_investment := min_investment_from (minimum_investment f) rest in
            RaisedBelowMinimum initial_capital min_investment
              (option_map name
                 (find (fun f => deqb (minimum_investment f) min_investment) funds))
        end
    | _ :: _ =>
        let excluded_funds :=
          filter (fun fund => dltb initial_capital (minimum_investment fund)) funds in
        PrintedNotes
          (map (fun fund => (name fund, minimum_investment fund)) excluded_funds)
    end.

(** The loop of [print_results] that projects the funds: the list
    [results] and the warnings it prints. *)
Fixpoint project_funds (funds : list Fund) (params : Params)
  : list (Fund * Projection) * list string :=
  match funds with
  | [] => ([], [])
  | fund :: rest =>
      let '(results, warnings) := project_funds rest params in
      match calculate_returns fund params with
      | Ok result => ((fund, result) :: results, warnings)
      | Err e =>
          (results,
           ("Warning: Could not calculate returns for " ++ name fund
            ++ ": " ++ str_exn e)%string :: warnings)
      end
  end.

(** [print_results] up to the test on [results]: the list [results], or
    the exception that leaves the function, and the warnings printed.  The
    end date is computed before the funds are projected, and an exception
    there leaves the function before any fund is looked at.  The ranking,
    which sorts on the float of the final balance, and the rendering are
    left out. *)
Definition print_results (funds : list Fund) (params : Params)
  : result (list (Fund * Projection)) * list string :=
  match add_months (start_date params) (investment_period params) with
  | Err e => (Err e, [])
  | Ok end_date =>
      let '(results, warnings) := project_funds funds params in
      match results with
      | [] =>
          (Err (ValueError "No valid results calculated for any fund"), warnings)
      | _ :: _ => (Ok results, warnings)
      end
  end.

End MMFAnalyzer.

Import MMFAnalyzer.

(** * Properties *)

(** ** Runs used as examples *)

(** The first default fund and a run of one month from 2024-01-01 with a
    capital of 1000, a withholding tax of 15 % and fees applied. *)
Definition fund_first : Fund :=
  mkFund "My first example fund" (Dec 1691 (-2)) (Dec 85 (-2)) (Dec 1000 0).

Definition params_1000 : Params :=
  mkParams (Dec 10000 (-1)) (Dec 0 (-1)) 1 (Dec 150 (-1)) true true
    (mkdate 2024 1 1).

(** The same run over three months with a monthly contribution of 500. *)
Definition params_3_months : Params :=
  mkParams (Dec 10000 (-1)) (Dec 5000 (-1)) 3 (Dec 150 (-1)) true true
    (mkdate 2024 1 1).

(** A run that starts in the last month of the calendar. *)
Definition params_9999 : Params :=
  mkParams (Dec 10000 (-1)) (Dec 0 (-1)) 1 (Dec 150 (-1)) true true
    (mkdate 9999 12 1).

(** A fund whose fee rate is so large that its fee has no 28-digit
    rounding to the cent. *)
Definition fund_corrupt : Fund :=
  mkFund "Corrupt" (Dec 1691 (-2)) (Dec 1 30) (Dec 100 0).

Definition fund_second : Fund :=
  mkFund "My second example fund" (Dec 1686 (-2)) (Dec 90 (-2)) (Dec 100 0).

(** ** Results *)

Lemma bind_ok {A B : Type} (m : result A) (f : A -> result B) (b : B) :
  bind m f = Ok b -> exists a, m = Ok a /\ f a = Ok b.
Proof.
  destruct m as [a | e]; simpl; intros H.
  - exists a. split; [reflexivity | exact H].
  - discriminate H.
Qed.

Lemma bind_err {A B : Type} (m : result A) (f : A -> result B) (e : exn) :
  m = Err e -> bind m f = Err e.
Proof. intros ->. reflexivity. Qed.

(** Invert a chain of binds that returned. *)
Ltac invert_bind H :=
  let a := fresh "a" in
  let Ha := fresh "Ha" in
  apply bind_ok in H; destruct H as (a & Ha & H).

(** ** Fund construction *)

Lemma ten_pow_pos (k : Z) : 0 <= k -> 0 < 10 ^ k.
Proof. intros Hk. apply Z.pow_pos_nonneg; lia. Qed.

Lemma dcompare_zero (d : decimal) : dcompare d Decimal_0 = (coef d ?= 0).
Proof.
  unfold dcompare, Decimal_0, of_int. cbn [coef dexp].
  set (e := Z.min (dexp d) 0).
  assert (Hp : 0 < 10 ^ (dexp d - e)) by (apply ten_pow_pos; lia).
  rewrite Z.mul_0_l.
  destruct (Z.compare_spec (coef d) 0) as [H | H | H].
  - subst. rewrite H. reflexivity.
  - apply Z.compare_lt_iff. nia.
  - apply Z.compare_gt_iff. nia.
Qed.

Lemma dleb_zero (d : decimal) : dleb d Decimal_0 = (coef d <=? 0).
Proof.
  unfold dleb. rewrite dcompare_zero. unfold Z.leb.
  destruct (coef d ?= 0); reflexivity.
Qed.

Lemma dltb_zero (d : decimal) : dltb d Decimal_0 = (coef d <? 0).
Proof.
  unfold dltb. rewrite dcompare_zero. unfold Z.ltb.
  destruct (coef d ?= 0); reflexivity.
Qed.

Lemma check_decimal_some (v : pyval) (bad : decimal -> bool) (d : decimal) :
  check_decimal v bad = Some d <->
  v = PyDec d /\ coef d <> 0 /\ bad d = false.
Proof.
  unfold check_decimal. destruct v as [ | s | n | d0]; cbn [py_truthy].
  - cbn. split; [discriminate | intros (H & _); discriminate].
  - destruct (negb (negb (String.eqb s "")));
      (split; [discriminate | intros (H & _); discriminate]).
  - destruct (negb (negb (n =? 0)));
      (split; [discriminate | intros (H & _); discriminate]).
  - unfold truthy. rewrite negb_involutive.
    destruct (Z.eqb_spec (coef d0) 0) as [Hz | Hz].
    + split; [discriminate | intros (H & Hn & _)].
      injection H as ->. contradiction.
    + destruct (bad d0) eqn:Hb.
      * split; [discriminate | intros (H & _ & Hb')].
        injection H as ->. congruence.
      * split.
        -- intros H. injection H as ->. auto.
        -- intros (H & _). injection H as ->. reflexivity.
Qed.

(** The constructor accepts exactly a non-empty name, a positive rate, a
    positive fee rate and a positive minimum investment. *)
Lemma Fund_new_ok_iff (n r f m : pyval) (F : Fund) :
  Fund_new n r f m = Ok F <->
  exists s dr df dm,
    n = PyStr s /\ s <> ""%string
    /\ r = PyDec dr /\ 0 < coef dr
    /\ f = PyDec df /\ 0 < coef df
    /\ m = PyDec dm /\ 0 < coef dm
    /\ F = mkFund s dr df dm.
Proof.
  unfold Fund_new. split.
  - destruct n as [ | s | k | d]; try discriminate.
    cbn [py_truthy]. rewrite negb_involutive.
    destruct (String.eqb_spec s "") as [Hs | Hs]; [discriminate | ].
    destruct (check_decimal r _) as [dr | ] eqn:Hr; [ | discriminate].
    destruct (check_decimal f _) as [df | ] eqn:Hf; [ | discriminate].
    destruct (check_decimal m _) as [dm | ] eqn:Hm; [ | discriminate].
    intros H. injection H as <-.
    apply check_decimal_some in Hr, Hf, Hm.
    destruct Hr as (-> & Hr0 & Hr), Hf as (-> & Hf0 & Hf), Hm as (-> & Hm0 & Hm).
    rewrite dleb_zero in Hr. rewrite dltb_zero in Hf, Hm.
    exists s, dr, df, dm. repeat split; try assumption; lia.
  - intros (s & dr & df & dm & -> & Hs & -> & Hr & -> & Hf & -> & Hm & ->).
    cbn [py_truthy]. rewrite negb_involutive.
    destruct (String.eqb_spec s "") as [Hs' | _]; [contradiction | ].
    assert (Er : check_decimal (PyDec dr) (fun d => dleb d Decimal_0) = Some dr).
    { apply check_decimal_some. rewrite dleb_zero. repeat split; lia. }
    assert (Ef : check_decimal (PyDec df) (fun d => dltb d Decimal_0) = Some df).
    { apply check_decimal_some. rewrite dltb_zero. repeat split; lia. }
    assert (Em : check_decimal (PyDec dm) (fun d => dltb d Decimal_0) = Some dm).
    { apply check_decimal_some. rewrite dltb_zero. repeat split; lia. }
    rewrite Er, Ef, Em. reflexivity.
Qed.

(** C2 (the code departs from the claim): a fund whose annual fee rate is
    exactly 0, or whose minimum investment is exactly 0, is refused by the
    constructor, although both values lie in the ranges the data model
    allows: the truth test [not self.mgt_fee] holds for a zero decimal. *)
Theorem C2_zero_fee_or_minimum_is_refused :
  Fund_new (PyStr "A") (PyDec (Dec 10 0)) (PyDec (Dec 0 0)) (PyDec (Dec 100 0))
  = Err (ValueError "Invalid management fee for fund A")
  /\ Fund_new (PyStr "A") (PyDec (Dec 10 0)) (PyDec (Dec 85 (-2))) (PyDec (Dec 0 0))
     = Err (ValueError "Invalid minimum investment for fund A").
Proof. split; reflexivity. Qed.

(** ** The comparison of funds *)

(** The parameters of a run with an initial capital of 500. *)
Definition params_500 : Params :=
  mkParams (Dec 5000 (-1)) (Dec 0 (-1)) 1 (Dec 150 (-1)) true true
    (mkdate 2024 1 1).

(** Nothing in a projection reads the minimum investment of the fund. *)
Lemma month_loop_ignores_minimum (n : string) (r f m m' : decimal)
    (params : Params) (months : list nat) (st : month_state) :
  month_loop (mkFund n r f m) params months st
  = month_loop (mkFund n r f m') params months st.
Proof.
  revert st. induction months as [ | k months IH]; intros st; [reflexivity | ].
  cbn [month_loop].
  change (month_step (mkFund n r f m) params st k)
    with (month_step (mkFund n r f m') params st k).
  destruct (month_step (mkFund n r f m') params st k) as [st' | e];
    [apply IH | reflexivity].
Qed.

Lemma calculate_returns_ignores_minimum (n : string) (r f m m' : decimal)
    (params : Params) :
  calculate_returns (mkFund n r f m) params
  = calculate_returns (mkFund n r f m') params.
Proof.
  unfold calculate_returns, calculate_returns_try.
  rewrite (month_loop_ignores_minimum n r f m m'). reflexivity.
Qed.

(** C1 (the code departs from the claim): with the two default funds of
    minimum investment 1000 and 100 and an initial capital of 500,
    [validate_parameters] reports the first fund as requiring a higher
    minimum investment, and [print_results] then projects both funds, the
    first one included. *)
Theorem C1_fund_below_minimum_is_projected :
  validate_parameters default_funds params_500
  = PrintedNotes [("My first example fund"%string, Dec 1000 0)]
  /\ exists results,
       print_results default_funds params_500 = (Ok results, [])
       /\ map (fun fr => (name (fst fr), minimum_investment (fst fr))) results
          = [("My first example fund"%string, Dec 1000 0);
             ("My second example fund"%string, Dec 100 0)].
Proof.
  split; [reflexivity | ].
  eexists. split; [vm_compute; reflexivity | reflexivity].
Qed.

(** ** Calendar months *)

Lemma monthrange_days_bounds (y m : Z) :
  1 <= m <= 12 -> 28 <= monthrange_days y m <= 31.
Proof.
  intros Hm. unfold monthrange_days.
  assert (Hc : m = 1 \/ m = 2 \/ m = 3 \/ m = 4 \/ m = 5 \/ m = 6 \/ m = 7
               \/ m = 8 \/ m = 9 \/ m = 10 \/ m = 11 \/ m = 12) by lia.
  repeat (destruct Hc as [-> | Hc]); try subst m; cbn [mdays Z.eqb Pos.eqb andb];
    try lia.
  destruct (isleap y); lia.
Qed.

Lemma date_new_ok (y m d : Z) :
  MINYEAR <= y <= MAXYEAR -> 1 <= m <= 12 -> 1 <= d <= monthrange_days y m ->
  date_new y m d = Ok (mkdate y m d).
Proof.
  intros Hy Hm Hd. unfold date_new. unfold MINYEAR, MAXYEAR in *.
  destruct (Z.ltb_spec y (- 2 ^ 63)); [lia | ].
  destruct (Z.ltb_spec (2 ^ 63 - 1) y); [lia | ].
  destruct (Z.ltb_spec (2 ^ 31 - 1) y); [lia | ].
  destruct (Z.ltb_spec y (- 2 ^ 31)); [lia | ].
  destruct (Z.ltb_spec y 1); [lia | ].
  destruct (Z.ltb_spec 9999 y); [lia | ].
  destruct (Z.ltb_spec m 1); [lia | ].
  destruct (Z.ltb_spec 12 m); [lia | ].
  destruct (Z.ltb_spec d 1); [lia | ].
  destruct (Z.ltb_spec (monthrange_days y m) d); [lia | ].
  reflexivity.
Qed.

Lemma date_new_inv (y m d : Z) (x : date) :
  date_new y m d = Ok x -> x = mkdate y m d.
Proof.
  unfold date_new.
  destruct ((y <? - 2 ^ 63) || (2 ^ 63 - 1 <? y)); [discriminate | ].
  destruct (2 ^ 31 - 1 <? y); [discriminate | ].
  destruct (y <? - 2 ^ 31); [discriminate | ].
  destruct ((y <? MINYEAR) || (MAXYEAR <? y)); [discriminate | ].
  destruct ((m <? 1) || (12 <? m)); [discriminate | ].
  destruct ((d <? 1) || (monthrange_days y m <? d)); [discriminate | ].
  intros H. injection H as <-. reflexivity.
Qed.

(** [add_months] returns whenever the year it reaches is a year of the
    calendar. *)
Lemma add_months_ok (d : date) (months : Z) :
  1 <= day d ->
  let y := year d + (month d - 1 + months) / 12 in
  let m := (month d - 1 + months) mod 12 + 1 in
  MINYEAR <= y <= MAXYEAR ->
  add_months d months = Ok (mkdate y m (Z.min (day d) (monthrange_days y m))).
Proof.
  intros Hd y m Hy. unfold add_months. fold y. fold m.
  assert (Hm : 1 <= m <= 12).
  { unfold m. pose proof (Z.mod_pos_bound (month d - 1 + months) 12). lia. }
  pose proof (monthrange_days_bounds y m Hm).
  apply date_new_ok; lia.
Qed.

Lemma add_months_inv (d d' : date) (months : Z) :
  add_months d months = Ok d' ->
  year d' = year d + (month d - 1 + months) / 12
  /\ month d' = (month d - 1 + months) mod 12 + 1
  /\ day d' = Z.min (day d) (monthrange_days (year d') (month d')).
Proof.
  unfold add_months. intros H. apply date_new_inv in H. subst d'.
  cbn [year month day]. auto.
Qed.

(** Each period of a projection moves the current date by one call of
    [add_months] with one month. *)
Lemma month_step_date (fund : Fund) (params : Params) (st st' : month_state)
    (k : nat) :
  month_step fund params st k = Ok st' ->
  add_months (st_current_date st) 1 = Ok (st_current_date st').
Proof.
  unfold month_step. intros H.
  invert_bind H. invert_bind H. injection H as <-. cbn [st_current_date].
  assumption.
Qed.

(** C7: a start date of Jan 31 moved by one calendar month is Feb 28 in a
    common year and Feb 29 in a leap year, and moved by one more month, as
    the projection loop does period after period, it is Mar 28 or Mar 29;
    whatever the date, the month and year advance by the number of months
    and the day is the smaller of the source day and the length of the
    month reached. *)
Theorem C7_month_advance_clamps_day :
  (forall y : Z, MINYEAR <= y <= MAXYEAR ->
     let last_of_feb := if isleap y then 29 else 28 in
     add_months (mkdate y 1 31) 1 = Ok (mkdate y 2 last_of_feb)
     /\ (d1 <- add_months (mkdate y 1 31) 1 ;; add_months d1 1)
        = Ok (mkdate y 3 last_of_feb))
  /\ (forall (d d' : date) (months : Z),
        add_months d months = Ok d' ->
        12 * year d' + month d' = 12 * year d + month d + months
        /\ 1 <= month d' <= 12
        /\ day d' = Z.min (day d) (monthrange_days (year d') (month d')))
  /\ (forall fund params st st' k,
        month_step fund params st k = Ok st' ->
        add_months (st_current_date st) 1 = Ok (st_current_date st')).
Proof.
  split; [ | split].
  - intros y Hy last_of_feb.
    assert (E1 : add_months (mkdate y 1 31) 1 = Ok (mkdate y 2 last_of_feb)).
    { rewrite add_months_ok; cbn [year month day].
      - replace ((1 - 1 + 1) / 12) with 0 by reflexivity.
        replace ((1 - 1 + 1) mod 12 + 1) with 2 by reflexivity.
        rewrite Z.add_0_r. unfold monthrange_days, last_of_feb.
        cbn [mdays Z.eqb Pos.eqb andb]. destruct (isleap y); reflexivity.
      - lia.
      - replace ((1 - 1 + 1) / 12) with 0 by reflexivity. lia. }
    split; [exact E1 | ]. rewrite E1. cbn [bind].
    rewrite add_months_ok; cbn [year month day].
    + replace ((2 - 1 + 1) / 12) with 0 by reflexivity.
      replace ((2 - 1 + 1) mod 12 + 1) with 3 by reflexivity.
      rewrite Z.add_0_r. unfold monthrange_days, last_of_feb.
      cbn [mdays Z.eqb Pos.eqb andb]. destruct (isleap y); reflexivity.
    + unfold last_of_feb. destruct (isleap y); lia.
    + replace ((2 - 1 + 1) / 12) with 0 by reflexivity. lia.
  - intros d d' months H. apply add_months_inv in H.
    destruct H as (Hy & Hm & Hd).
    pose proof (Z.mod_pos_bound (month d - 1 + months) 12 ltac:(lia)).
    pose proof (Z.div_mod (month d - 1 + months) 12 ltac:(lia)).
    repeat split; try assumption; lia.
  - exact month_step_date.
Qed.

Lemma C7_month_advance_clamps_day_witness :
  (add_months (mkdate 2023 1 31) 1 = Ok (mkdate 2023 2 28)
   /\ (d1 <- add_months (mkdate 2023 1 31) 1 ;; add_months d1 1)
      = Ok (mkdate 2023 3 28))
  /\ (add_months (mkdate 2024 1 31) 1 = Ok (mkdate 2024 2 29)
      /\ (d1 <- add_months (mkdate 2024 1 31) 1 ;; add_months d1 1)
         = Ok (mkdate 2024 3 29))
  /\ day (mkdate 2024 2 29)
     = Z.min (day (mkdate 2024 1 31)) (monthrange_days 2024 2)
  /\ exists st',
       month_step fund_first params_1000 (initial_state params_1000) 0 = Ok st'
       /\ add_months (mkdate 2024 1 1) 1 = Ok (st_current_date st').
Proof.
  split; [ | split; [ | split]].
  - apply (proj1 C7_month_advance_clamps_day 2023). unfold MINYEAR, MAXYEAR. lia.
  - apply (proj1 C7_month_advance_clamps_day 2024). unfold MINYEAR, MAXYEAR. lia.
  - apply (proj1 (proj2 C7_month_advance_clamps_day)
             (mkdate 2024 1 31) (mkdate 2024 2 29) 1).
    reflexivity.
  - eexists. split; [vm_compute; reflexivity | ].
    apply (proj2 (proj2 C7_month_advance_clamps_day)
             fund_first params_1000 (initial_state params_1000) _ 0%nat).
    vm_compute. reflexivity.
Defined.

(** A single call that moves Jan 31 by two months keeps the 31st: the
    clamping to Mar 28 or 29 comes from moving one month at a time. *)
Example add_months_two_at_once :
  add_months (mkdate 2023 1 31) 2 = Ok (mkdate 2023 3 31).
Proof. reflexivity. Qed.

(** ** The month loop *)

Lemma month_step_contribution (fund : Fund) (params : Params)
    (st st' : month_state) (k : nat) :
  month_step fund params st k = Ok st' ->
  st_total_contribution st'
  = if (0 <? Z.of_nat k)
    then (st_total_contribution st + monthly_contribution params)%dec
    else st_total_contribution st.
Proof.
  unfold month_step. intros H.
  invert_bind H. invert_bind H. injection H as <-. reflexivity.
Qed.

(** From the second period on, every period adds one contribution. *)
Lemma month_loop_contribution_later (fund : Fund) (params : Params) (n : nat) :
  forall (s : nat) (st st' : month_state),
    (0 < s)%nat ->
    month_loop fund params (seq s n) st = Ok st' ->
    st_total_contribution st'
    = Nat.iter n (fun t => (t + monthly_contribution params)%dec)
        (st_total_contribution st).
Proof.
  induction n as [ | n IH]; intros s st st' Hs H.
  - cbn in H. injection H as <-. reflexivity.
  - cbn [seq month_loop] in H. invert_bind H.
    apply IH in H; [ | lia]. rewrite H.
    apply month_step_contribution in Ha. rewrite Ha.
    destruct (Z.ltb_spec 0 (Z.of_nat s)); [ | lia].
    rewrite Nat.iter_succ_r. reflexivity.
Qed.

Lemma month_loop_contribution (fund : Fund) (params : Params) (n : nat)
    (st st' : month_state) :
  month_loop fund params (seq 0 n) st = Ok st' ->
  st_total_contribution st'
  = Nat.iter (n - 1) (fun t => (t + monthly_contribution params)%dec)
      (st_total_contribution st).
Proof.
  destruct n as [ | n]; intros H.
  - cbn in H. injection H as <-. reflexivity.
  - cbn [seq month_loop] in H. invert_bind H.
    apply month_loop_contribution_later in H; [ | lia]. rewrite H.
    apply month_step_contribution in Ha. rewrite Ha. cbn [Z.of_nat Z.ltb Z.compare].
    replace (S n - 1)%nat with n by lia. reflexivity.
Qed.

Lemma calculate_returns_ok (fund : Fund) (params : Params) (r : Projection) :
  calculate_returns fund params = Ok r ->
  exists st,
    month_loop fund params (seq 0 (Z.to_nat (investment_period params)))
      (initial_state params) = Ok st
    /\ final_balance r = st_balance st
    /\ total_interest r = st_total_interest st
    /\ total_fees r = st_total_fees st
    /\ total_contribution r = st_total_contribution st
    /\ monthly_balances r = st_monthly_balances st
    /\ daily_details r = st_daily_details st.
Proof.
  unfold calculate_returns.
  destruct (calculate_returns_try fund params) as [r' | e] eqn:E; [ | discriminate].
  intros H. injection H as ->. unfold calculate_returns_try in E.
  invert_bind E. injection E as <-. exists a. cbn. auto 10.
Qed.

(** C8 (amended): the total contributed that a projection returns is the
    initial capital to which the monthly contribution has been added once
    for every period after the first, each time with the decimal addition of
    the engine, which rounds to 28 significant digits; over a horizon of one
    month it is the initial capital itself. *)
Theorem C8_total_contribution (fund : Fund) (params : Params) (r : Projection) :
  calculate_returns fund params = Ok r ->
  total_contribution r
  = Nat.iter (Z.to_nat (investment_period params) - 1)
      (fun t => (t + monthly_contribution params)%dec)
      (initial_capital params)
  /\ (investment_period params = 1 ->
      total_contribution r = initial_capital params).
Proof.
  intros H. apply calculate_returns_ok in H.
  destruct H as (st & Hloop & _ & _ & _ & Htc & _).
  apply month_loop_contribution in Hloop. cbn [initial_state st_total_contribution] in Hloop.
  rewrite Htc, Hloop. split; [reflexivity | ].
  intros ->. reflexivity.
Qed.

(** ** Failures of a projection *)

Lemma project_funds_app (funds1 funds2 : list Fund) (params : Params) :
  project_funds (funds1 ++ funds2) params
  = (fst (project_funds funds1 params) ++ fst (project_funds funds2 params),
     snd (project_funds funds1 params) ++ snd (project_funds funds2 params)).
Proof.
  induction funds1 as [ | f funds1 IH].
  - cbn. destruct (project_funds funds2 params). reflexivity.
  - cbn [app project_funds]. rewrite IH.
    destruct (project_funds funds1 params) as [r1 w1].
    destruct (project_funds funds2 params) as [r2 w2]. cbn [fst snd].
    destruct (calculate_returns f params); reflexivity.
Qed.

(** C9: an exception raised in the projection loop of a fund leaves
    [calculate_returns] as a [ValueError] whose message carries the name of
    the fund; [print_results] turns the failure of a fund into one warning
    that names it, and the results and warnings of the funds before and
    after it are what they are without it. *)
Theorem C9_failure_is_wrapped_and_skipped :
  (forall fund params e,
     month_loop fund params (seq 0 (Z.to_nat (investment_period params)))
       (initial_state params) = Err e ->
     calculate_returns fund params
     = Err (ValueError ("Error calculating returns for " ++ name fund
                        ++ ": " ++ str_exn e)))
  /\ (forall funds1 fund funds2 params e,
        calculate_returns fund params = Err e ->
        project_funds (funds1 ++ fund :: funds2) params
        = (fst (project_funds funds1 params) ++ fst (project_funds funds2 params),
           snd (project_funds funds1 params)
           ++ ("Warning: Could not calculate returns for " ++ name fund
               ++ ": " ++ str_exn e)%string
           :: snd (project_funds funds2 params))).
Proof.
  split.
  - intros fund params e H. unfold calculate_returns, calculate_returns_try.
    rewrite H. reflexivity.
  - intros funds1 fund funds2 params e H.
    rewrite project_funds_app. cbn [project_funds]. rewrite H.
    destruct (project_funds funds2 params) as [r2 w2]. reflexivity.
Qed.

(** ** The day loop *)

(** A trace of day entries that starts from the balance [b]: each entry
    holds the day's interest on the running balance and the balance after
    that interest has been added. *)
Fixpoint accrual_trace (daily_rate tax b : decimal) (tr : list DayEntry) : Prop :=
  match tr with
  | [] => True
  | e :: rest =>
      de_interest e = calculate_daily_interest b daily_rate tax
      /\ de_balance e = (b + de_interest e)%dec
      /\ accrual_trace daily_rate tax (de_balance e) rest
  end.

(** The decimal sum that a loop [acc += x] leaves in [acc]. *)
Definition dsum_from (acc : decimal) (xs : list decimal) : decimal :=
  fold_left dadd xs acc.

Lemma day_loop_ok (cd : date) (daily_rate tax : decimal) (days : list nat) :
  forall (b mi : decimal) (tr : list DayEntry) (st' : day_state),
    day_loop cd daily_rate tax days (b, mi, tr) = Ok st' ->
    exists new,
      st' = (dsum_from b (map de_interest new),
             dsum_from mi (map de_interest new),
             tr ++ new)
      /\ List.length new = List.length days
      /\ accrual_trace daily_rate tax b new.
Proof.
  induction days as [ | k days IH]; intros b mi tr st' H.
  - cbn in H. injection H as <-. exists []. rewrite app_nil_r. cbn. auto.
  - cbn [day_loop] in H. invert_bind H.
    unfold day_step in Ha. invert_bind Ha. injection Ha as <-.
    apply IH in H. destruct H as (new & -> & Hlen & Htr).
    exists (mkDay a0
              (b + calculate_daily_interest b daily_rate tax)%dec
              (calculate_daily_interest b daily_rate tax) :: new).
    rewrite <- app_assoc. cbn [app map de_interest dsum_from fold_left List.length
                                accrual_trace de_balance].
    repeat split; try reflexivity; try assumption. now rewrite Hlen.
Qed.

(** What a period that settles returns. *)
Lemma calculate_monthly_returns_ok (fund : Fund) (params : Params)
    (cd : date) (month : Z) (starting_balance : decimal) (r : MonthResult) :
  calculate_monthly_returns fund params cd month starting_balance = Ok r ->
  let daily_rate := (rate fund / of_int 365 / of_int 100)%dec in
  let opening :=
    if 0 <? month then (starting_balance + monthly_contribution params)%dec
    else starting_balance in
  let interests := map de_interest (mr_daily_balances r) in
  let closing_pre_fee := dsum_from opening interests in
  accrual_trace daily_rate (withholding_tax params) opening (mr_daily_balances r)
  /\ List.length (mr_daily_balances r) = Z.to_nat (get_month_days cd)
  /\ mr_interest r = dsum_from Decimal_0 interests
  /\ (if include_fees params
      then calculate_management_fee starting_balance closing_pre_fee
             (mgt_fee fund) = Ok (mr_fee r)
           /\ mr_balance r = (closing_pre_fee - mr_fee r)%dec
      else mr_fee r = Decimal_0 /\ mr_balance r = closing_pre_fee).
Proof.
  unfold calculate_monthly_returns. intros H. invert_bind H.
  apply day_loop_ok in Ha. destruct Ha as (new & -> & Hlen & Htr).
  rewrite length_seq in Hlen. cbn [app] in H.
  destruct (include_fees params).
  - invert_bind H. injection H as <-. cbn. auto.
  - injection H as <-. cbn. auto.
Qed.

(** C3 as the specification words it, on the values of the decimals: the
    closing balance is the opening balance, plus the contribution after the
    first period, plus the sum of the interests of the days, less the fee
    when fees apply. *)
Definition closing_balance_as_stated (params : Params) (month : Z)
    (starting_balance : decimal) (r : MonthResult) : Prop :=
  (dec_value (mr_balance r)
   == dec_value starting_balance
      + (if 0 <? month then dec_value (monthly_contribution params) else 0)
      + fold_right Qplus 0 (map (fun e => dec_value (de_interest e))
                              (mr_daily_balances r))
      - (if include_fees params then dec_value (mr_fee r) else 0))%Q.




(** C10: in a period after the first with fees applied, the fee is the
    management fee of the balance the period started from, before the
    contribution, and of the closing balance before the fee; the
    contribution enters only the latter, being part of the balance on
    which the days accrue. *)
Theorem C10_fee_opening_is_before_contribution (fund : Fund) (params : Params)
    (cd : date) (month : Z) (starting_balance : decimal) (r : MonthResult) :
  0 < month ->
  include_fees params = true ->
  calculate_monthly_returns fund params cd month starting_balance = Ok r ->
  let contributed := (starting_balance + monthly_contribution params)%dec in
  let closing_pre_fee :=
    dsum_from contributed (map de_interest (mr_daily_balances r)) in
  calculate_management_fee starting_balance closing_pre_fee (mgt_fee fund)
  = Ok (mr_fee r)
  /\ accrual_trace (rate fund / of_int 365 / of_int 100)%dec
       (withholding_tax params) contributed (mr_daily_balances r).
Proof.
  intros Hm Hf H. apply calculate_monthly_returns_ok in H.
  destruct (Z.ltb_spec 0 month); [ | lia]. rewrite Hf in H.
  destruct H as (Htr & _ & _ & Hfee & _). split; assumption.
Qed.

Lemma C10_fee_opening_is_before_contribution_witness :
  exists r,
    calculate_monthly_returns fund_first params_3_months (mkdate 2024 2 1) 1
      (Dec 10000 (-1)) = Ok r
    /\ calculate_management_fee (Dec 10000 (-1))
         (dsum_from (Dec 10000 (-1) + Dec 5000 (-1))%dec
            (map de_interest (mr_daily_balances r)))
         (Dec 85 (-2))
       = Ok (mr_fee r).
Proof.
  eexists. split; [vm_compute; reflexivity | ].
  refine (proj1 (C10_fee_opening_is_before_contribution fund_first
                   params_3_months (mkdate 2024 2 1) 1 (Dec 10000 (-1)) _
                   _ _ _)).
  - reflexivity.
  - reflexivity.
  - vm_compute. reflexivity.
Defined.

(** On that period the fee is 0.89; had the opening side of the average
    been the balance after the contribution it would have been 1.07. *)
Example fee_opening_side_matters :
  exists r,
    calculate_monthly_returns fund_first params_3_months (mkdate 2024 2 1) 1
      (Dec 10000 (-1)) = Ok r
    /\ mr_fee r = Dec 89 (-2)
    /\ calculate_management_fee (Dec 10000 (-1) + Dec 5000 (-1))%dec
         (dsum_from (Dec 10000 (-1) + Dec 5000 (-1))%dec
            (map de_interest (mr_daily_balances r)))
         (Dec 85 (-2))
       = Ok (Dec 107 (-2)).
Proof.
  eexists. split; [vm_compute; reflexivity | ].
  split; vm_compute; reflexivity.
Qed.

Lemma C8_total_contribution_witness :
  exists r,
    calculate_returns fund_first params_3_months = Ok r
    /\ total_contribution r
       = ((Dec 10000 (-1) + Dec 5000 (-1)) + Dec 5000 (-1))%dec.
Proof.
  eexists. split; [vm_compute; reflexivity | ].
  refine (proj1 (C8_total_contribution fund_first params_3_months _ _)).
  vm_compute. reflexivity.
Defined.

Lemma C9_failure_is_wrapped_and_skipped_witness :
  calculate_returns fund_first params_9999
  = Err (ValueError
           "Error calculating returns for My first example fund: year 10000 is out of range")
  /\ exists r1 r2,
       project_funds ([fund_first] ++ fund_corrupt :: [fund_second]) params_1000
       = ([(fund_first, r1); (fund_second, r2)],
          ["Warning: Could not calculate returns for Corrupt: Error calculating returns for Corrupt: [<class 'decimal.InvalidOperation'>]"%string]).
Proof.
  split.
  - apply (proj1 C9_failure_is_wrapped_and_skipped fund_first params_9999
             (ValueError "year 10000 is out of range")).
    vm_compute. reflexivity.
  - eexists. eexists.
    rewrite (proj2 C9_failure_is_wrapped_and_skipped [fund_first] fund_corrupt
               [fund_second] params_1000
               (ValueError
                  "Error calculating returns for Corrupt: [<class 'decimal.InvalidOperation'>]")).
    + vm_compute. reflexivity.
    + vm_compute. reflexivity.
Defined.

(** C8 as the specification words it, on the values of the decimals: the
    total contributed is the initial capital plus one monthly contribution
    for every period after the first. *)
Definition total_contribution_as_stated (params : Params) (r : Projection)
  : Prop :=
  (dec_value (total_contribution r)
   == dec_value (initial_capital params)
      + inject_Z (Z.max (investment_period params - 1) 0)
        * dec_value (monthly_contribution params))%Q.

(** A run of two months with an initial capital of 1e22 and a monthly
    contribution of 0.30000000000000004. *)
Definition params_wide : Params :=
  mkParams (Dec 1 22) (Dec 30000000000000004 (-17)) 2 (Dec 150 (-1)) true true
    (mkdate 2024 1 1).

(** The parameters pass [validate_parameters]; the sum of the capital and
    of the one contribution has 40 digits, and the total the projection
    returns is its rounding to 28 digits, 10000000000000000000000.30000. *)
Lemma C8_counterexample :
  validate_parameters default_funds params_wide = PrintedNotes []
  /\ exists r,
       calculate_returns fund_first params_wide = Ok r
       /\ total_contribution r = Dec 1000000000000000000000030000 (-5)
       /\ ~ total_contribution_as_stated params_wide r.
Proof.
  split; [vm_compute; reflexivity | ].
  eexists. split; [vm_compute; reflexivity | ].
  split; [vm_compute; reflexivity | ].
  unfold total_contribution_as_stated. intros H.
  apply Qeq_bool_iff in H. vm_compute in H. discriminate H.
Qed.

(** * Decimal arithmetic by value *)

(** ** The number of digits of a coefficient *)

Lemma digits_fuel_spec (fuel : nat) :
  forall n : Z,
    0 < n -> n < 2 ^ (Z.of_nat fuel + 1) ->
    1 <= digits_fuel fuel n
    /\ 10 ^ (digits_fuel fuel n - 1) <= n < 10 ^ digits_fuel fuel n.
Proof.
  induction fuel as [ | fuel IH]; intros n Hn Hlt.
  - cbn in Hlt. cbn [digits_fuel]. cbn. lia.
  - cbn [digits_fuel]. destruct (Z.ltb_spec n 10) as [Hs | Hs].
    + cbn. lia.
    + assert (Hq : 0 < n / 10) by (apply Z.div_str_pos; lia).
      assert (Hb : n / 10 < 2 ^ (Z.of_nat fuel + 1)).
      { apply Z.div_lt_upper_bound; [lia | ].
        rewrite Nat2Z.inj_succ in Hlt.
        replace (Z.succ (Z.of_nat fuel) + 1) with (1 + (Z.of_nat fuel + 1)) in Hlt by lia.
        rewrite Z.pow_add_r in Hlt by lia. lia. }
      destruct (IH (n / 10) Hq Hb) as (Hd & Hlo & Hhi).
      set (d := digits_fuel fuel (n / 10)) in *.
      replace (1 + d - 1) with (1 + (d - 1)) by lia.
      rewrite !Z.pow_add_r by lia.
      pose proof (Z.div_mod n 10 ltac:(lia)).
      pose proof (Z.mod_pos_bound n 10 ltac:(lia)).
      change (10 ^ 1) with 10. lia.
Qed.

Lemma ndigits_pos (c : Z) : 1 <= ndigits c.
Proof.
  unfold ndigits. destruct (Z.eq_dec c 0) as [-> | Hc].
  - cbn. lia.
  - apply digits_fuel_spec; [lia | ].
    rewrite Z2Nat.id by apply Z.log2_nonneg.
    apply Z.log2_spec. lia.
Qed.

Lemma ndigits_spec (c : Z) :
  c <> 0 -> 10 ^ (ndigits c - 1) <= Z.abs c < 10 ^ ndigits c.
Proof.
  intros Hc. unfold ndigits. apply digits_fuel_spec; [lia | ].
  rewrite Z2Nat.id by apply Z.log2_nonneg.
  apply Z.log2_spec. lia.
Qed.

Lemma ndigits_0 : ndigits 0 = 1.
Proof. reflexivity. Qed.

Lemma ndigits_abs (c : Z) : ndigits (Z.abs c) = ndigits c.
Proof. unfold ndigits. now rewrite Z.abs_idemp. Qed.

Lemma ndigits_opp (c : Z) : ndigits (- c) = ndigits c.
Proof. unfold ndigits. now rewrite Z.abs_opp. Qed.

Lemma ndigits_unique (c k : Z) :
  10 ^ (k - 1) <= Z.abs c < 10 ^ k -> 1 <= k -> ndigits c = k.
Proof.
  intros [Hlo Hhi] Hk.
  assert (Hc : c <> 0).
  { intros ->. cbn in Hlo. pose proof (Z.pow_pos_nonneg 10 (k - 1)). lia. }
  destruct (ndigits_spec c Hc) as [Hlo' Hhi'].
  pose proof (ndigits_pos c) as Hp.
  destruct (Z.lt_trichotomy (ndigits c) k) as [H | [H | H]]; [ | exact H | ].
  - assert (10 ^ ndigits c <= 10 ^ (k - 1)) by (apply Z.pow_le_mono_r; lia). lia.
  - assert (10 ^ k <= 10 ^ (ndigits c - 1)) by (apply Z.pow_le_mono_r; lia). lia.
Qed.

(** ** Powers of ten in the rationals *)

#[local] Open Scope Q_scope.

(** [lra] does not look through [inject_Z]: abstract the injected
    integers first. *)
Ltac hide_inject :=
  repeat match goal with
         | |- context [inject_Z ?z] =>
             let q := fresh "q" in set (q := inject_Z z) in *; clearbody q
         | H : context [inject_Z ?z] |- _ =>
             let q := fresh "q" in set (q := inject_Z z) in *; clearbody q
         end.

Lemma p10_pos (z : Z) : 0 < 10 ^ z.
Proof. apply Qpower_0_lt. reflexivity. Qed.

Lemma p10_nonzero (z : Z) : ~ 10 ^ z == 0.
Proof. pose proof (p10_pos z). lra. Qed.

Lemma p10_add (a b : Z) : 10 ^ (a + b) == 10 ^ a * 10 ^ b.
Proof. apply Qpower_plus. discriminate. Qed.

Lemma p10_sub (a b : Z) : 10 ^ (a - b) == 10 ^ a / 10 ^ b.
Proof. apply Qpower_minus. discriminate. Qed.

Lemma p10_le (a b : Z) : (a <= b)%Z -> 10 ^ a <= 10 ^ b.
Proof. intros H. apply Qpower_le_compat_l; [exact H | discriminate]. Qed.

Lemma p10_lt (a b : Z) : (a < b)%Z -> 10 ^ a < 10 ^ b.
Proof. intros H. apply Qpower_lt_compat_l; [exact H | reflexivity]. Qed.

Lemma p10_lt_inv (a b : Z) : 10 ^ a < 10 ^ b -> (a < b)%Z.
Proof. intros H. apply (Qpower_lt_compat_l_inv 10); [exact H | reflexivity]. Qed.

Lemma p10_inject (k : Z) : (0 <= k)%Z -> inject_Z (10 ^ k) == 10 ^ k.
Proof. intros H. apply (Zpower_Qpower 10 k H). Qed.

(** ** Rounding a rational to the nearest integer, ties to even *)

Definition Qround_half_even (x : Q) : Z :=
  let f := Qfloor x in
  match Qcompare (x - inject_Z f) (1 # 2) with
  | Lt => f
  | Gt => (f + 1)%Z
  | Eq => if Z.even f then f else (f + 1)%Z
  end.

Lemma Qround_half_even_comp (x y : Q) :
  x == y -> Qround_half_even x = Qround_half_even y.
Proof.
  intros H. unfold Qround_half_even.
  rewrite (Qfloor_comp x y H).
  assert (E : Qcompare (x - inject_Z (Qfloor y)) (1 # 2) = Qcompare (y - inject_Z (Qfloor y)) (1 # 2)).
  { apply Qcompare_comp; [rewrite H; reflexivity | reflexivity]. }
  rewrite E. reflexivity.
Qed.

Lemma Qround_half_even_Z (n : Z) : Qround_half_even (inject_Z n) = n.
Proof.
  unfold Qround_half_even. rewrite Qfloor_Z.
  assert (E : Qcompare (inject_Z n - inject_Z n) (1 # 2) = Lt).
  { apply (proj1 (Qlt_alt _ _)). lra. }
  rewrite E. reflexivity.
Qed.

Lemma Qround_half_even_bounds (x : Q) :
  (Qfloor x <= Qround_half_even x <= Qfloor x + 1)%Z.
Proof.
  unfold Qround_half_even.
  destruct (Qcompare (x - inject_Z (Qfloor x)) (1 # 2)); [destruct (Z.even (Qfloor x)) | | ]; lia.
Qed.

Lemma Qround_half_even_le (x y : Q) :
  x <= y -> (Qround_half_even x <= Qround_half_even y)%Z.
Proof.
  intros Hxy. pose proof (Qfloor_resp_le x y Hxy) as Hf.
  pose proof (Qround_half_even_bounds x) as Bx.
  pose proof (Qround_half_even_bounds y) as By.
  destruct (Z.eq_dec (Qfloor x) (Qfloor y)) as [E | NE]; [ | lia].
  unfold Qround_half_even in *. rewrite E in *.
  destruct (Qcompare_spec (x - inject_Z (Qfloor y)) (1 # 2)) as [Hx | Hx | Hx];
    destruct (Qcompare_spec (y - inject_Z (Qfloor y)) (1 # 2)) as [Hy | Hy | Hy];
    try destruct (Z.even (Qfloor y)); try lia; lra.
Qed.

(** The integer rounding of the decimal model is this rounding. *)
Lemma div_half_even_Q (n : Z) (d : positive) :
  div_half_even n (Z.pos d) = Qround_half_even (n # d).
Proof.
  unfold div_half_even, Qround_half_even.
  change (Qfloor (n # d)) with (n / Z.pos d)%Z.
  assert (E : Qcompare ((n # d) - inject_Z (n / Z.pos d)) (1 # 2)
              = (2 * (n mod Z.pos d) ?= Z.pos d)%Z).
  { unfold Qcompare, Qminus, Qplus, Qopp, inject_Z. cbn [Qnum Qden].
    pose proof (Z.div_mod n (Z.pos d) ltac:(lia)) as Hdm.
    f_equal; lia. }
  rewrite E. reflexivity.
Qed.

Lemma div_half_even_nonneg (n d : Z) :
  (0 <= n)%Z -> (0 < d)%Z -> (0 <= div_half_even n d)%Z.
Proof.
  intros Hn Hd. unfold div_half_even.
  assert (0 <= n / d)%Z by (apply Z.div_pos; lia).
  destruct (2 * (n mod d) ?= d)%Z; [destruct (Z.even (n / d)) | | ]; lia.
Qed.

(** ** The value of a decimal *)

Lemma value_dneg (d : decimal) : dec_value (dneg d) == - dec_value d.
Proof.
  unfold dec_value, dneg. cbn [coef dexp]. rewrite inject_Z_opp. ring.
Qed.

Lemma value_zero (e : Z) : dec_value (Dec 0 e) == 0.
Proof. unfold dec_value. cbn [coef dexp]. ring. Qed.

Lemma value_pos_iff (d : decimal) : 0 < dec_value d <-> (0 < coef d)%Z.
Proof.
  unfold dec_value. pose proof (p10_pos (dexp d)) as Hp.
  rewrite Zlt_Qlt. change (inject_Z 0) with 0. split; intros H; nra.
Qed.

Lemma value_nonneg_iff (d : decimal) : 0 <= dec_value d <-> (0 <= coef d)%Z.
Proof.
  unfold dec_value. pose proof (p10_pos (dexp d)) as Hp.
  rewrite Zle_Qle. change (inject_Z 0) with 0. split; intros H; nra.
Qed.

Lemma value_zero_iff (d : decimal) : dec_value d == 0 <-> coef d = 0%Z.
Proof.
  unfold dec_value. pose proof (p10_pos (dexp d)) as Hp.
  rewrite <- (inject_Z_injective (coef d) 0). change (inject_Z 0) with 0.
  split; intros H; nra.
Qed.

(** A coefficient may be traded for zeros of the exponent. *)
Lemma value_shift (c e k : Z) :
  (0 <= k)%Z -> dec_value (Dec (c * 10 ^ k) (e - k)) == dec_value (Dec c e).
Proof.
  intros Hk. unfold dec_value. cbn [coef dexp].
  rewrite inject_Z_mult, (p10_inject k Hk), p10_sub.
  field. apply p10_nonzero.
Qed.

(** ** Rounding to 28 significant digits *)

(** [y] is the positive rational [x] rounded to 28 significant digits,
    ties to the even digit: with [E] the exponent of the 28th digit of [x],
    [y] is the multiple of [10 ^ E] nearest to [x]. *)
Definition rounds_pos (x y : Q) : Prop :=
  exists E : Z,
    10 ^ (E + 27) <= x /\ x < 10 ^ (E + 28)
    /\ y == inject_Z (Qround_half_even (x / 10 ^ E)) * 10 ^ E.

(** [y] is [x] rounded to 28 significant digits, ties to even. *)
Definition rounds_to (x y : Q) : Prop :=
  (x == 0 /\ y == 0) \/ rounds_pos x y \/ rounds_pos (- x) (- y).

Lemma rounds_pos_comp (x x' y y' : Q) :
  x == x' -> y == y' -> rounds_pos x y -> rounds_pos x' y'.
Proof.
  intros Hx Hy (E & H1 & H2 & H3). exists E. split; [ | split].
  - now rewrite <- Hx.
  - now rewrite <- Hx.
  - rewrite <- Hy, H3.
    now rewrite (Qround_half_even_comp (x / 10 ^ E) (x' / 10 ^ E)) by now rewrite Hx.
Qed.

Lemma rounds_to_comp (x x' y y' : Q) :
  x == x' -> y == y' -> rounds_to x y -> rounds_to x' y'.
Proof.
  intros Hx Hy [[H1 H2] | [H | H]].
  - left. split; [now rewrite <- Hx | now rewrite <- Hy].
  - right. left. exact (rounds_pos_comp _ _ _ _ Hx Hy H).
  - right. right. apply (rounds_pos_comp (- x) (- x') (- y) (- y')); trivial.
    + rewrite Hx. reflexivity.
    + rewrite Hy. reflexivity.
Qed.

Lemma rounds_pos_positive (x y : Q) : rounds_pos x y -> 0 < x.
Proof.
  intros (E & H1 & _). pose proof (p10_pos (E + 27)). lra.
Qed.

Lemma fix_neg (d : decimal) : fix_ (dneg d) = dneg (fix_ d).
Proof.
  unfold fix_, dneg. cbn [coef dexp]. rewrite ndigits_opp, Z.abs_opp, Z.sgn_opp.
  destruct (ndigits (coef d) <=? prec)%Z; [reflexivity | ].
  destruct (prec <? ndigits _)%Z; cbn [coef dexp]; f_equal; ring.
Qed.

Lemma fix_small (d : decimal) : (ndigits (coef d) <= prec)%Z -> fix_ d = d.
Proof.
  intros H. unfold fix_. destruct (Z.leb_spec (ndigits (coef d)) prec); [reflexivity | lia].
Qed.

Lemma fix_rounds_pos (d : decimal) :
  (0 < coef d)%Z -> rounds_pos (dec_value d) (dec_value (fix_ d)).
Proof.
  intros Hc. destruct d as [c e]. cbn [coef] in Hc.
  destruct (ndigits_spec c ltac:(lia)) as [Hlo Hhi].
  pose proof (ndigits_pos c) as Hn. rewrite Z.abs_eq in Hlo, Hhi by lia.
  set (n := ndigits c) in *.
  exists (e + n - 28)%Z.
  change (dec_value {| coef := c; dexp := e |}) with (inject_Z c * 10 ^ e).
  pose proof (p10_pos e) as Hpe.
  split; [ | split].
  - replace (e + n - 28 + 27)%Z with ((n - 1) + e)%Z by lia.
    rewrite p10_add, <- (p10_inject (n - 1)) by lia.
    apply Qmult_le_compat_r; [ | lra]. rewrite <- Zle_Qle. exact Hlo.
  - replace (e + n - 28 + 28)%Z with (n + e)%Z by lia.
    rewrite p10_add, <- (p10_inject n) by lia.
    apply Qmult_lt_compat_r; [lra | ]. rewrite <- Zlt_Qlt. exact Hhi.
  - unfold fix_. cbn [coef dexp]. fold n. unfold prec.
    destruct (Z.leb_spec n 28) as [Hs | Hs].
    + (* no rounding *)
      assert (E : inject_Z c * 10 ^ e / 10 ^ (e + n - 28)
                  == inject_Z (c * 10 ^ (28 - n))).
      { rewrite inject_Z_mult, (p10_inject (28 - n)) by lia.
        replace e with ((28 - n) + (e + n - 28))%Z at 1 by lia.
        rewrite p10_add. field. apply p10_nonzero. }
      rewrite (Qround_half_even_comp _ _ E), Qround_half_even_Z.
      unfold dec_value. cbn [coef dexp].
      rewrite inject_Z_mult, (p10_inject (28 - n)) by lia.
      replace e with ((28 - n) + (e + n - 28))%Z at 1 by lia.
      rewrite p10_add. ring.
    + (* rounding [k] digits away *)
      set (k := (n - 28)%Z).
      assert (Hk : (0 < 10 ^ k)%Z) by (apply Z.pow_pos_nonneg; lia).
      destruct (10 ^ k)%Z as [ | p | p] eqn:Ep; try lia.
      assert (E : inject_Z c * 10 ^ e / 10 ^ (e + n - 28) == c # p).
      { rewrite (Qmake_Qdiv c p), <- Ep, (p10_inject k) by lia.
        replace (e + n - 28)%Z with (e + k)%Z by lia.
        rewrite p10_add. field. split; apply p10_nonzero. }
      rewrite (Qround_half_even_comp _ _ E), <- div_half_even_Q.
      rewrite Z.abs_eq, (Z.sgn_pos c) by lia.
      set (m := div_half_even c (Z.pos p)).
      assert (Hm0 : (0 <= m)%Z) by (apply div_half_even_nonneg; lia).
      assert (Hm1 : (m <= 10 ^ 28)%Z).
      { assert (c / Z.pos p < 10 ^ 28)%Z.
        { apply Z.div_lt_upper_bound; [lia | ].
          rewrite <- Ep, <- Z.pow_add_r by lia.
          replace (k + 28)%Z with n by lia. exact Hhi. }
        unfold m, div_half_even.
        destruct (2 * (c mod Z.pos p) ?= Z.pos p)%Z;
          [destruct (Z.even (c / Z.pos p)) | | ]; lia. }
      replace (e + n - 28)%Z with (e + k)%Z by lia.
      destruct (Z.ltb_spec 28 (ndigits m)) as [Hd | Hd]; unfold dec_value;
        cbn [coef dexp].
      * assert (Hm : m = (10 ^ 28)%Z).
        { assert (m <> 0%Z) by (intros Hz; rewrite Hz in Hd; cbn in Hd; lia).
          destruct (ndigits_spec m ltac:(assumption)) as [Hlo' _].
          rewrite Z.abs_eq in Hlo' by lia.
          assert (10 ^ 28 <= 10 ^ (ndigits m - 1))%Z
            by (apply Z.pow_le_mono_r; lia).
          lia. }
        rewrite Hm. replace (e + k + 1)%Z with (1 + (e + k))%Z by lia.
        rewrite p10_add. change (1 * (10 ^ 28 / 10))%Z with (10 ^ 27)%Z.
        change (inject_Z (10 ^ 27)) with (10 ^ 27). change (inject_Z (10 ^ 28)) with (10 ^ 28).
        change (10 ^ 1) with 10. change (10 ^ 28) with (10 * 10 ^ 27). ring.
      * rewrite Z.mul_1_l. reflexivity.
Qed.

Lemma fix_rounds (d : decimal) : rounds_to (dec_value d) (dec_value (fix_ d)).
Proof.
  destruct (Z.lt_trichotomy (coef d) 0) as [H | [H | H]].
  - right. right.
    apply (rounds_pos_comp (dec_value (dneg d)) _ (dec_value (fix_ (dneg d)))).
    + apply value_dneg.
    + rewrite fix_neg. apply value_dneg.
    + apply fix_rounds_pos. cbn. lia.
  - left. destruct d as [c e]. cbn in H. subst c.
    rewrite fix_small by (cbn; unfold prec; lia).
    split; apply value_zero.
  - right. left. apply fix_rounds_pos. exact H.
Qed.

Lemma rounds_pos_range (x y : Q) :
  rounds_pos x y ->
  exists E : Z,
    (10 ^ (E + 27) <= x /\ x < 10 ^ (E + 28))
    /\ (10 ^ (E + 27) <= y /\ y <= 10 ^ (E + 28))
    /\ y == inject_Z (Qround_half_even (x / 10 ^ E)) * 10 ^ E.
Proof.
  intros (E & H1 & H2 & H3). exists E.
  split; [split; assumption | ]. split; [ | assumption].
  pose proof (p10_pos E) as HE.
  rewrite H3. split.
  - replace (E + 27)%Z with (27 + E)%Z by lia. rewrite p10_add.
    apply Qmult_le_compat_r; [ | lra].
    rewrite <- (p10_inject 27) by lia. rewrite <- Zle_Qle.
    rewrite <- (Qround_half_even_Z (10 ^ 27)).
    apply Qround_half_even_le. rewrite (p10_inject 27) by lia.
    apply Qle_shift_div_l; [exact HE | ].
    rewrite <- p10_add. replace (27 + E)%Z with (E + 27)%Z by lia. exact H1.
  - replace (E + 28)%Z with (28 + E)%Z by lia. rewrite p10_add.
    apply Qmult_le_compat_r; [ | lra].
    rewrite <- (p10_inject 28) by lia. rewrite <- Zle_Qle.
    rewrite <- (Qround_half_even_Z (10 ^ 28)).
    apply Qround_half_even_le. rewrite (p10_inject 28) by lia.
    apply Qle_shift_div_r; [exact HE | ].
    rewrite <- p10_add. replace (28 + E)%Z with (E + 28)%Z by lia. lra.
Qed.

Lemma rounds_pos_result_positive (x y : Q) : rounds_pos x y -> 0 < y.
Proof.
  intros H. apply rounds_pos_range in H. destruct H as (E & _ & [H _] & _).
  pose proof (p10_pos (E + 27)). lra.
Qed.

Lemma rounds_pos_mono (x1 y1 x2 y2 : Q) :
  rounds_pos x1 y1 -> rounds_pos x2 y2 -> x1 <= x2 -> y1 <= y2.
Proof.
  intros H1 H2 Hx. apply rounds_pos_range in H1, H2.
  destruct H1 as (E1 & [Hx1 Hx1'] & [Hy1 Hy1'] & Ey1).
  destruct H2 as (E2 & [Hx2 Hx2'] & [Hy2 Hy2'] & Ey2).
  assert (HE : (E1 <= E2)%Z).
  { assert (10 ^ (E1 + 27) < 10 ^ (E2 + 28)) by lra.
    apply p10_lt_inv in H. lia. }
  destruct (Z.eq_dec E1 E2) as [<- | Hne].
  - rewrite Ey1, Ey2. pose proof (p10_pos E1) as HE1.
    apply Qmult_le_compat_r; [ | lra]. rewrite <- Zle_Qle.
    apply Qround_half_even_le. apply Qmult_le_compat_r; [exact Hx | ].
    apply Qlt_le_weak, Qinv_lt_0_compat, HE1.
  - assert (10 ^ (E1 + 28) <= 10 ^ (E2 + 27)) by (apply p10_le; lia). lra.
Qed.

(** Rounding keeps the sign. *)
Lemma rounds_to_sign (x y : Q) :
  rounds_to x y ->
  (0 < x -> 0 < y) /\ (x < 0 -> y < 0) /\ (x == 0 -> y == 0).
Proof.
  intros [[Hx Hy] | [H | H]].
  - repeat split; intros; try lra.
  - pose proof (rounds_pos_positive _ _ H).
    pose proof (rounds_pos_result_positive _ _ H).
    repeat split; intros; lra.
  - pose proof (rounds_pos_positive _ _ H).
    pose proof (rounds_pos_result_positive _ _ H).
    repeat split; intros; lra.
Qed.

Lemma rounds_to_nonneg (x y : Q) : rounds_to x y -> 0 <= x -> 0 <= y.
Proof.
  intros H Hx. destruct (rounds_to_sign x y H) as (Hp & _ & Hz).
  destruct (Qlt_le_dec 0 x) as [Hl | Hl].
  - apply Qlt_le_weak, Hp, Hl.
  - assert (x == 0) by lra. rewrite (Hz H0). lra.
Qed.

(** Rounding is monotone. *)
Lemma rounds_to_mono (x1 y1 x2 y2 : Q) :
  rounds_to x1 y1 -> rounds_to x2 y2 -> x1 <= x2 -> y1 <= y2.
Proof.
  intros H1 H2 Hx.
  destruct (rounds_to_sign _ _ H1) as (P1 & N1 & Z1).
  destruct (rounds_to_sign _ _ H2) as (P2 & N2 & Z2).
  destruct H1 as [[Hx1 Hy1] | [H1 | H1]].
  - (* x1 = 0 *)
    destruct (Qlt_le_dec 0 x2) as [Hl | Hl].
    + specialize (P2 Hl). lra.
    + assert (E : x2 == 0) by lra. specialize (Z2 E). lra.
  - (* 0 < x1 *)
    pose proof (rounds_pos_positive _ _ H1) as Hp.
    destruct H2 as [[Hx2 Hy2] | [H2 | H2]].
    + lra.
    + exact (rounds_pos_mono _ _ _ _ H1 H2 Hx).
    + pose proof (rounds_pos_positive _ _ H2). lra.
  - (* x1 < 0 *)
    pose proof (rounds_pos_positive _ _ H1) as Hp.
    assert (Hn1 : y1 < 0) by (apply N1; lra).
    destruct H2 as [[Hx2 Hy2] | [H2 | H2]].
    + lra.
    + pose proof (rounds_pos_result_positive _ _ H2). lra.
    + assert (- y2 <= - y1) by (apply (rounds_pos_mono _ _ _ _ H2 H1); lra).
      lra.
Qed.

Lemma rounds_to_unique (x y y' : Q) :
  rounds_to x y -> rounds_to x y' -> y == y'.
Proof.
  intros H H'. apply Qle_antisym.
  - apply (rounds_to_mono x y x y' H H'). lra.
  - apply (rounds_to_mono x y' x y H' H). lra.
Qed.

(** A decimal of at most 28 digits is its own rounding. *)
Lemma rounds_to_exact (d : decimal) :
  (ndigits (coef d) <= 28)%Z -> rounds_to (dec_value d) (dec_value d).
Proof.
  intros H. pose proof (fix_rounds d) as Hr.
  rewrite fix_small in Hr by exact H. exact Hr.
Qed.

(** ** The operations, by value *)

Lemma value_mul (a b : decimal) :
  dec_value (Dec (coef a * coef b) (dexp a + dexp b))
  == dec_value a * dec_value b.
Proof.
  unfold dec_value. cbn [coef dexp]. rewrite inject_Z_mult, p10_add. ring.
Qed.

Lemma value_add (a b : decimal) :
  let e := Z.min (dexp a) (dexp b) in
  dec_value (Dec (coef a * 10 ^ (dexp a - e) + coef b * 10 ^ (dexp b - e)) e)
  == dec_value a + dec_value b.
Proof.
  intros e. unfold dec_value. cbn [coef dexp].
  rewrite inject_Z_plus, !inject_Z_mult.
  rewrite (p10_inject (dexp a - e)), (p10_inject (dexp b - e)) by lia.
  rewrite !p10_sub. field. apply p10_nonzero.
Qed.

(** The product of two decimals is the rounding of the product of their
    values. *)
Lemma dmul_rounds (a b : decimal) :
  rounds_to (dec_value a * dec_value b) (dec_value (a * b)%dec).
Proof.
  unfold dmul. eapply rounds_to_comp; [apply value_mul | reflexivity | ].
  apply fix_rounds.
Qed.

Lemma dadd_rounds (a b : decimal) :
  rounds_to (dec_value a + dec_value b) (dec_value (a + b)%dec).
Proof.
  unfold dadd. eapply rounds_to_comp; [apply value_add | reflexivity | ].
  apply fix_rounds.
Qed.

Lemma dsub_rounds (a b : decimal) :
  rounds_to (dec_value a - dec_value b) (dec_value (a - b)%dec).
Proof.
  unfold dsub. eapply rounds_to_comp; [ | reflexivity | apply dadd_rounds].
  rewrite value_dneg. ring.
Qed.

(** ** Division *)

(** The bumped last digit: rounding the quotient [n / d], with its last
    digit moved off 0 and 5 when there is a remainder, to a multiple of
    [10 * m'] is rounding the fraction [n / d] itself. *)
Lemma div_half_even_sticky (n d m' : Z) :
  (0 <= n)%Z -> (0 < d)%Z -> (0 < m')%Z -> (n mod d <> 0)%Z ->
  div_half_even (if (n / d) mod 5 =? 0 then n / d + 1 else n / d)%Z (10 * m')
  = div_half_even n (d * (10 * m')).
Proof.
  intros Hn Hd Hm Hr.
  set (M := (10 * m')%Z). set (q := (n / d)%Z). set (r := (n mod d)%Z).
  assert (HM : (0 < M)%Z) by (unfold M; lia).
  pose proof (Z.mod_pos_bound n d Hd) as Br. fold r in Br, Hr.
  pose proof (Z.div_mod q M ltac:(lia)) as Eq.
  pose proof (Z.mod_pos_bound q M HM) as Bs.
  set (f := (q / M)%Z) in *. set (s := (q mod M)%Z) in *.
  (* the right-hand side *)
  assert (R1 : (n / (d * M) = f)%Z).
  { unfold f, q. rewrite Z.div_div by lia. reflexivity. }
  assert (R2 : (n mod (d * M) = r + d * s)%Z).
  { unfold r, s, q. apply Z.rem_mul_r; lia. }
  (* the residue of the quotient modulo 5 *)
  assert (H5 : (q mod 5 = s mod 5)%Z).
  { rewrite Eq. unfold M.
    replace (10 * m' * f + s)%Z with (s + (2 * m' * f) * 5)%Z by ring.
    apply Z_mod_plus_full. }
  pose proof (Z.div_mod s 5 ltac:(lia)) as Es.
  pose proof (Z.mod_pos_bound s 5 ltac:(lia)) as Bs5.
  unfold div_half_even at 2. rewrite R1, R2.
  destruct (Z.eqb_spec (q mod 5) 0) as [Hz | Hz].
  - (* the last digit is 0 or 5 and is bumped *)
    assert (Hs1 : (s + 1 < M)%Z) by (unfold M in *; lia).
    assert (Q1 : ((q + 1) / M = f)%Z).
    { symmetry. apply (Z.div_unique _ _ _ (s + 1)); lia. }
    assert (Q2 : ((q + 1) mod M = s + 1)%Z).
    { symmetry. apply (Z.mod_unique _ _ f); lia. }
    unfold div_half_even. rewrite Q1, Q2.
    destruct (Z.lt_ge_cases s (5 * m')) as [Hlt | Hge].
    + assert (E1 : (2 * (s + 1) ?= M)%Z = Lt) by (apply Z.compare_lt_iff; unfold M; lia).
      assert (E2 : (2 * (r + d * s) ?= d * M)%Z = Lt)
        by (apply Z.compare_lt_iff; unfold M; nia).
      rewrite E1, E2. reflexivity.
    + assert (E1 : (2 * (s + 1) ?= M)%Z = Gt) by (apply Z.compare_gt_iff; unfold M; lia).
      assert (E2 : (2 * (r + d * s) ?= d * M)%Z = Gt)
        by (apply Z.compare_gt_iff; unfold M; nia).
      rewrite E1, E2. reflexivity.
  - (* the last digit stays *)
    fold f. fold s. unfold div_half_even. fold f. fold s.
    destruct (Z.lt_ge_cases s (5 * m')) as [Hlt | Hge].
    + assert (E1 : (2 * s ?= M)%Z = Lt) by (apply Z.compare_lt_iff; unfold M; lia).
      assert (E2 : (2 * (r + d * s) ?= d * M)%Z = Lt)
        by (apply Z.compare_lt_iff; unfold M; nia).
      rewrite E1, E2. reflexivity.
    + assert (s <> 5 * m')%Z by (intros E; rewrite E in *; lia).
      assert (E1 : (2 * s ?= M)%Z = Gt) by (apply Z.compare_gt_iff; unfold M; lia).
      assert (E2 : (2 * (r + d * s) ?= d * M)%Z = Gt)
        by (apply Z.compare_gt_iff; unfold M; nia).
      rewrite E1, E2. reflexivity.
Qed.

Lemma strip_zeros_value (fuel : nat) :
  forall c e : Z,
    dec_value (strip_zeros fuel c e) == dec_value (Dec c e).
Proof.
  induction fuel as [ | fuel IH]; intros c e; cbn [strip_zeros]; [reflexivity | ].
  destruct (Z.eqb_spec (c mod 10) 0) as [Hz | Hz]; [ | reflexivity].
  rewrite IH. unfold dec_value. cbn [coef dexp].
  pose proof (Z.div_mod c 10 ltac:(lia)) as E. rewrite Hz, Z.add_0_r in E.
  rewrite E at 2. rewrite inject_Z_mult, p10_add.
  change (10 ^ 1) with 10. change (inject_Z 10) with 10. ring.
Qed.

Lemma strip_zeros_pos (fuel : nat) :
  forall c e : Z, (0 < c)%Z -> (0 < coef (strip_zeros fuel c e))%Z.
Proof.
  induction fuel as [ | fuel IH]; intros c e Hc; cbn [strip_zeros]; [exact Hc | ].
  destruct (Z.eqb_spec (c mod 10) 0) as [Hz | Hz]; [ | exact Hc].
  apply IH. pose proof (Z.div_mod c 10 ltac:(lia)). lia.
Qed.

(** The exponent of the 28th digit is determined by the number. *)
Lemma rounds_pos_at (x y : Q) (E : Z) :
  rounds_pos x y -> 10 ^ (E + 27) <= x -> x < 10 ^ (E + 28) ->
  y == inject_Z (Qround_half_even (x / 10 ^ E)) * 10 ^ E.
Proof.
  intros (E' & H1 & H2 & H3) H1' H2'.
  assert (E' = E) as ->; [ | exact H3].
  assert (A : 10 ^ (E' + 27) < 10 ^ (E + 28)) by lra.
  assert (B : 10 ^ (E + 27) < 10 ^ (E' + 28)) by lra.
  apply p10_lt_inv in A, B. lia.
Qed.

(** A quotient whose last digit is bumped is not a power of ten. *)
Lemma bump_not_multiple_of_5 (q p : Z) :
  (p mod 5 = 0)%Z -> (q mod 5 = 0)%Z -> (q + 1)%Z <> p.
Proof.
  intros Hp Hq E. rewrite <- E, Z.add_mod, Hq in Hp by lia. discriminate Hp.
Qed.

(** The quotient of two positive coefficients, before the sign is put
    back: what [ddiv] hands to the final rounding. *)
Definition quotient_digits (A B ea eb : Z) : decimal :=
  let shift := (ndigits B - ndigits A + prec + 1)%Z in
  let e := (ea - eb - shift)%Z in
  let n := if (0 <=? shift)%Z then (A * 10 ^ shift)%Z else A in
  let d := if (0 <=? shift)%Z then B else (B * 10 ^ (- shift))%Z in
  let q := (n / d)%Z in
  if (n mod d =? 0)%Z then strip_zeros (Z.to_nat shift) q e
  else Dec (if (q mod 5 =? 0)%Z then q + 1 else q)%Z e.

Lemma ddiv_quotient_digits (a b : decimal) :
  coef a <> 0%Z -> coef b <> 0%Z ->
  ddiv a b
  = let s := quotient_digits (Z.abs (coef a)) (Z.abs (coef b)) (dexp a) (dexp b) in
    fix_ (Dec (Z.sgn (coef a) * Z.sgn (coef b) * coef s) (dexp s)).
Proof.
  intros Ha Hb. unfold ddiv, quotient_digits.
  destruct (Z.eqb_spec (coef b) 0) as [ | _]; [contradiction | ].
  destruct (Z.eqb_spec (coef a) 0) as [ | _]; [contradiction | ].
  rewrite !ndigits_abs. cbv zeta.
  destruct (_ =? 0)%Z; reflexivity.
Qed.

Lemma quotient_digits_rounds (A B ea eb : Z) :
  (0 < A)%Z -> (0 < B)%Z ->
  let s := quotient_digits A B ea eb in
  (0 < coef s)%Z
  /\ rounds_pos (inject_Z A * 10 ^ ea / (inject_Z B * 10 ^ eb))
       (dec_value (fix_ s)).
Proof.
  intros HA HB. unfold quotient_digits.
  destruct (ndigits_spec A ltac:(lia)) as [Alo Ahi].
  destruct (ndigits_spec B ltac:(lia)) as [Blo Bhi].
  rewrite Z.abs_eq in Alo, Ahi, Blo, Bhi by lia.
  pose proof (ndigits_pos A) as HlA. pose proof (ndigits_pos B) as HlB.
  set (la := ndigits A) in *. set (lb := ndigits B) in *.
  unfold prec. set (shift := (lb - la + 28 + 1)%Z).
  set (e := (ea - eb - shift)%Z).
  set (n := if (0 <=? shift)%Z then (A * 10 ^ shift)%Z else A).
  set (d := if (0 <=? shift)%Z then B else (B * 10 ^ (- shift))%Z).
  (* the scaled fraction and its bounds *)
  assert (Hd : (0 < d)%Z /\ (d * 10 ^ 28 < n)%Z /\ (n < d * 10 ^ 30)%Z).
  { unfold n, d. destruct (Z.leb_spec 0 shift) as [Hs | Hs].
    - split; [lia | ].
      assert (E1 : (10 ^ (la - 1) * 10 ^ shift = 10 ^ lb * 10 ^ 28)%Z).
      { rewrite <- !Z.pow_add_r by lia. f_equal. unfold shift. lia. }
      assert (E2 : (10 ^ la * 10 ^ shift = 10 ^ (lb - 1) * 10 ^ 30)%Z).
      { rewrite <- !Z.pow_add_r by lia. f_equal. unfold shift. lia. }
      assert (0 < 10 ^ shift)%Z by (apply Z.pow_pos_nonneg; lia).
      split; nia.
    - assert (0 < 10 ^ (- shift))%Z by (apply Z.pow_pos_nonneg; lia).
      split; [nia | ].
      assert (E1 : (10 ^ lb * 10 ^ (- shift) * 10 ^ 28 = 10 ^ (la - 1))%Z).
      { rewrite <- !Z.pow_add_r by lia. f_equal. unfold shift. lia. }
      assert (E2 : (10 ^ (lb - 1) * 10 ^ (- shift) * 10 ^ 30 = 10 ^ la)%Z).
      { rewrite <- !Z.pow_add_r by lia. f_equal. unfold shift. lia. }
      split; nia. }
  destruct Hd as (Hd & Hlo & Hhi).
  assert (Hn : (0 <= n)%Z) by nia.
  assert (EX : inject_Z A * 10 ^ ea / (inject_Z B * 10 ^ eb)
               == inject_Z n / inject_Z d * 10 ^ e).
  { assert (NB : ~ inject_Z B == 0) by (rewrite (inject_Z_injective B 0); lia).
    unfold n, d, e. destruct (Z.leb_spec 0 shift) as [Hs | Hs].
    - rewrite inject_Z_mult, (p10_inject shift Hs), !p10_sub.
      field. repeat split; try apply p10_nonzero; exact NB.
    - rewrite inject_Z_mult, (p10_inject (- shift)) by lia.
      replace (ea - eb - shift)%Z with (ea - eb + - shift)%Z by lia.
      rewrite p10_add, p10_sub.
      field. repeat split; try apply p10_nonzero; exact NB. }
  set (q := (n / d)%Z).
  pose proof (Z.div_mod n d ltac:(lia)) as Edm. fold q in Edm.
  pose proof (Z.mod_pos_bound n d Hd) as Br.
  assert (Hq : (10 ^ 28 <= q < 10 ^ 30)%Z).
  { split.
    - apply Z.div_le_lower_bound; lia.
    - apply Z.div_lt_upper_bound; lia. }
  cbv zeta.
  destruct (Z.eqb_spec (n mod d) 0) as [Hr | Hr].
  - (* the division is exact *)
    assert (Hs : (0 < coef (strip_zeros (Z.to_nat shift) q e))%Z)
      by (apply strip_zeros_pos; lia).
    split; [exact Hs | ].
    eapply rounds_pos_comp; [ | reflexivity | apply fix_rounds_pos; exact Hs].
    rewrite strip_zeros_value, EX. unfold dec_value. cbn [coef dexp].
    assert (En : n = (d * q)%Z) by lia. rewrite En at 1. rewrite inject_Z_mult.
    field. rewrite (inject_Z_injective d 0). lia.
  - (* the division is inexact *)
    set (q' := (if (q mod 5 =? 0)%Z then q + 1 else q)%Z).
    cbn [coef].
    assert (Hq' : (q <= q' <= q + 1)%Z /\ ((q mod 5 = 0)%Z -> q' = (q + 1)%Z)
                  /\ ((q mod 5 <> 0)%Z -> q' = q)).
    { unfold q'. destruct (Z.eqb_spec (q mod 5) 0); lia. }
    destruct Hq' as (Bq' & Q5 & Q5').
    split; [lia | ].
    (* the number of digits to round away: one or two *)
    assert (Hk : exists k m' : Z,
               (1 <= k <= 2)%Z /\ (10 ^ k = 10 * m')%Z /\ (0 < m')%Z
               /\ (10 ^ (k + 27) <= q)%Z /\ (q' < 10 ^ (k + 28))%Z).
    { destruct (Z.lt_ge_cases q' (10 ^ 29)) as [Hc | Hc].
      - exists 1%Z, 1%Z. change (10 ^ (1 + 27))%Z with (10 ^ 28)%Z.
        change (10 ^ (1 + 28))%Z with (10 ^ 29)%Z. repeat split; lia.
      - exists 2%Z, 10%Z. change (10 ^ (2 + 27))%Z with (10 ^ 29)%Z.
        change (10 ^ (2 + 28))%Z with (10 ^ 30)%Z.
        repeat split; try lia.
        + destruct (Z.eq_dec (q mod 5) 0) as [Hz | Hz];
            [ | specialize (Q5' Hz); lia].
          pose proof (bump_not_multiple_of_5 q (10 ^ 29) eq_refl Hz).
          specialize (Q5 Hz). lia.
        + destruct (Z.eq_dec (q mod 5) 0) as [Hz | Hz];
            [ | specialize (Q5' Hz); lia].
          pose proof (bump_not_multiple_of_5 q (10 ^ 30) eq_refl Hz).
          specialize (Q5 Hz). lia. }
    destruct Hk as (k & m' & Hk & E10 & Hm' & Hqlo & Hqhi).
    assert (Hp : (0 < 10 ^ k)%Z) by lia.
    (* the value the final rounding returns *)
    assert (Hdig : rounds_pos (dec_value (Dec q' e)) (dec_value (fix_ (Dec q' e))))
      by (apply fix_rounds_pos; cbn; lia).
    pose proof (p10_pos e) as Hpe.
    assert (Hy := rounds_pos_at _ _ (e + k) Hdig).
    change (dec_value (Dec q' e)) with (inject_Z q' * 10 ^ e) in Hy.
    assert (Y1 : 10 ^ (e + k + 27) <= inject_Z q' * 10 ^ e).
    { replace (e + k + 27)%Z with ((k + 27) + e)%Z by lia.
      rewrite p10_add, <- (p10_inject (k + 27)) by lia.
      apply Qmult_le_compat_r; [ | lra]. rewrite <- Zle_Qle. lia. }
    assert (Y2 : inject_Z q' * 10 ^ e < 10 ^ (e + k + 28)).
    { replace (e + k + 28)%Z with ((k + 28) + e)%Z by lia.
      rewrite p10_add, <- (p10_inject (k + 28)) by lia.
      apply Qmult_lt_compat_r; [lra | ]. rewrite <- Zlt_Qlt. lia. }
    specialize (Hy Y1 Y2).
    (* the fraction lies between the same powers of ten *)
    assert (Pd : 0 < inject_Z d) by (rewrite (Zlt_Qlt 0 d) in Hd; exact Hd).
    assert (X1 : inject_Z (10 ^ (k + 27)) <= inject_Z n / inject_Z d).
    { apply Qle_shift_div_l; [exact Pd | ].
      rewrite <- inject_Z_mult, <- Zle_Qle. nia. }
    assert (X2 : inject_Z n / inject_Z d < inject_Z (10 ^ (k + 28))).
    { apply Qlt_shift_div_r; [exact Pd | ].
      rewrite <- inject_Z_mult, <- Zlt_Qlt. nia. }
    apply (rounds_pos_comp (inject_Z n / inject_Z d * 10 ^ e) _ _ _
             (Qeq_sym _ _ EX) (Qeq_refl _)).
    exists (e + k)%Z. split; [ | split].
    + replace (e + k + 27)%Z with ((k + 27) + e)%Z by lia.
      rewrite p10_add, <- (p10_inject (k + 27)) by lia.
      apply Qmult_le_compat_r; [exact X1 | lra].
    + replace (e + k + 28)%Z with ((k + 28) + e)%Z by lia.
      rewrite p10_add, <- (p10_inject (k + 28)) by lia.
      apply Qmult_lt_compat_r; [lra | exact X2].
    + rewrite Hy. apply Qmult_comp; [ | reflexivity]. apply inject_Z_injective.
      (* both roundings are integer roundings, equal by the bumped digit *)
      destruct (10 ^ k)%Z as [ | pk | pk] eqn:Epk; try lia.
      destruct d as [ | pd | pd] eqn:Epd; try lia.
      assert (L : inject_Z q' * 10 ^ e / 10 ^ (e + k) == q' # pk).
      { rewrite (Qmake_Qdiv q' pk), <- Epk, (p10_inject k) by lia.
        rewrite p10_add. field. split; apply p10_nonzero. }
      assert (R : inject_Z n / inject_Z (Z.pos pd) * 10 ^ e / 10 ^ (e + k)
                  == n # (pd * pk)).
      { rewrite (Qmake_Qdiv n (pd * pk)), Pos2Z.inj_mul, inject_Z_mult.
        rewrite <- Epk, (p10_inject k) by lia.
        rewrite p10_add. field. repeat split; try apply p10_nonzero.
        rewrite (inject_Z_injective (Z.pos pd) 0). lia. }
      rewrite (Qround_half_even_comp _ _ L), (Qround_half_even_comp _ _ R).
      rewrite <- !div_half_even_Q, Pos2Z.inj_mul, E10.
      unfold q', q. apply div_half_even_sticky; lia.
Qed.

(** The quotient of two decimals is the rounding of the quotient of their
    values. *)
Lemma ddiv_rounds (a b : decimal) :
  coef b <> 0%Z ->
  rounds_to (dec_value a / dec_value b) (dec_value (a / b)%dec).
Proof.
  intros Hb.
  assert (NB : ~ inject_Z (coef b) == 0) by (rewrite (inject_Z_injective _ 0); lia).
  destruct (Z.eq_dec (coef a) 0) as [Ha | Ha].
  - left. unfold ddiv.
    destruct (Z.eqb_spec (coef b) 0) as [ | _]; [contradiction | ].
    rewrite Ha. cbn [Z.eqb]. rewrite fix_small by (cbn; unfold prec; lia).
    split; [ | apply value_zero].
    unfold dec_value. rewrite Ha. change (inject_Z 0) with 0.
    field. split; [apply p10_nonzero | exact NB].
  - rewrite (ddiv_quotient_digits a b Ha Hb). cbv zeta.
    destruct (quotient_digits_rounds (Z.abs (coef a)) (Z.abs (coef b))
                (dexp a) (dexp b) ltac:(lia) ltac:(lia)) as [Hs Hr].
    set (s := quotient_digits _ _ _ _) in *.
    assert (NA : ~ inject_Z (coef a) == 0) by (rewrite (inject_Z_injective _ 0); lia).
    assert (Hsg : (Z.sgn (coef a) * Z.sgn (coef b) = 1
                   /\ Z.abs (coef a) * coef b = coef a * Z.abs (coef b))%Z
                  \/ (Z.sgn (coef a) * Z.sgn (coef b) = - 1
                      /\ Z.abs (coef a) * coef b = - (coef a * Z.abs (coef b)))%Z)
      by lia.
    assert (NB' : ~ inject_Z (Z.abs (coef b)) == 0)
      by (rewrite (inject_Z_injective _ 0); lia).
    destruct Hsg as [[Es Eab] | [Es Eab]]; rewrite Es.
    + right. left.
      replace (Dec (1 * coef s) (dexp s)) with s
        by (destruct s; cbn [coef dexp]; f_equal; lia).
      eapply rounds_pos_comp; [ | reflexivity | exact Hr].
      unfold dec_value.
      assert (E : inject_Z (Z.abs (coef a)) * inject_Z (coef b)
                  == inject_Z (coef a) * inject_Z (Z.abs (coef b)))
        by (rewrite <- !inject_Z_mult, Eab; reflexivity).
      apply (Qmult_inj_r _ _ (inject_Z (coef b) * inject_Z (Z.abs (coef b))
                               * 10 ^ dexp b)).
      { intros H. apply Qmult_integral in H. destruct H as [H | H];
          [ | exact (p10_nonzero _ H)].
        apply Qmult_integral in H. destruct H as [H | H]; contradiction. }
      transitivity (inject_Z (Z.abs (coef a)) * inject_Z (coef b) * 10 ^ dexp a).
      { field. split; [apply p10_nonzero | exact NB']. }
      rewrite E. field. split; [apply p10_nonzero | exact NB].
    + right. right.
      replace (Dec (-1 * coef s) (dexp s)) with (dneg s)
        by (unfold dneg; f_equal; lia).
      rewrite fix_neg.
      eapply (rounds_pos_comp _ _ (dec_value (fix_ s)));
        [ | rewrite value_dneg; ring | exact Hr].
      unfold dec_value.
      assert (E : inject_Z (Z.abs (coef a)) * inject_Z (coef b)
                  == - (inject_Z (coef a) * inject_Z (Z.abs (coef b))))
        by (rewrite <- !inject_Z_mult, Eab, inject_Z_opp; reflexivity).
      apply (Qmult_inj_r _ _ (inject_Z (coef b) * inject_Z (Z.abs (coef b))
                               * 10 ^ dexp b)).
      { intros H. apply Qmult_integral in H. destruct H as [H | H];
          [ | exact (p10_nonzero _ H)].
        apply Qmult_integral in H. destruct H as [H | H]; contradiction. }
      transitivity (inject_Z (Z.abs (coef a)) * inject_Z (coef b) * 10 ^ dexp a).
      { field. split; [apply p10_nonzero | exact NB']. }
      rewrite E. field. split; [apply p10_nonzero | exact NB].
Qed.

(** ** The day accrual, by value *)

Lemma value_of_int (n : Z) : dec_value (of_int n) == inject_Z n.
Proof. unfold dec_value, of_int. cbn [coef dexp]. change (10 ^ 0) with 1. ring. Qed.

Lemma rounds_to_one : rounds_to 1 1.
Proof.
  apply (rounds_to_comp (dec_value (of_int 1)) _ (dec_value (of_int 1)));
    [reflexivity | reflexivity | ].
  apply rounds_to_exact. cbn. lia.
Qed.

Lemma dmul_nonneg (a b : decimal) :
  0 <= dec_value a -> 0 <= dec_value b -> 0 <= dec_value (a * b)%dec.
Proof.
  intros Ha Hb. apply (rounds_to_nonneg _ _ (dmul_rounds a b)). nra.
Qed.

Lemma dmul_pos (a b : decimal) :
  0 < dec_value a -> 0 < dec_value b -> 0 < dec_value (a * b)%dec.
Proof.
  intros Ha Hb. apply (rounds_to_sign _ _ (dmul_rounds a b)). nra.
Qed.

Lemma dmul_mono_l (a a' b : decimal) :
  dec_value a <= dec_value a' -> 0 <= dec_value b ->
  dec_value (a * b)%dec <= dec_value (a' * b)%dec.
Proof.
  intros Ha Hb.
  apply (rounds_to_mono _ _ _ _ (dmul_rounds a b) (dmul_rounds a' b)). nra.
Qed.

Lemma dmul_mono_r (a b b' : decimal) :
  0 <= dec_value a -> dec_value b <= dec_value b' ->
  dec_value (a * b)%dec <= dec_value (a * b')%dec.
Proof.
  intros Ha Hb.
  apply (rounds_to_mono _ _ _ _ (dmul_rounds a b) (dmul_rounds a b')). nra.
Qed.

(** The factor [1 - withholding_tax / 100] of the day accrual. *)
Definition tax_factor (withholding_tax : decimal) : decimal :=
  (of_int 1 - withholding_tax / of_int 100)%dec.

Lemma calculate_daily_interest_factor (balance daily_rate t : decimal) :
  calculate_daily_interest balance daily_rate t
  = (balance * daily_rate * tax_factor t)%dec.
Proof. reflexivity. Qed.

Lemma Qdiv_100_le (x y : Q) : x <= y -> x / 100 <= y / 100.
Proof.
  intros H. unfold Qdiv. apply Qmult_le_compat_r; [exact H | ].
  vm_compute. discriminate.
Qed.

Lemma percent_rounds (t : decimal) :
  rounds_to (dec_value t / 100) (dec_value (t / of_int 100)%dec).
Proof.
  eapply rounds_to_comp; [ | reflexivity | apply (ddiv_rounds t (of_int 100))].
  - rewrite value_of_int. reflexivity.
  - cbn. lia.
Qed.

Lemma percent_mono (t t' : decimal) :
  dec_value t <= dec_value t' ->
  dec_value (t / of_int 100)%dec <= dec_value (t' / of_int 100)%dec.
Proof.
  intros H. apply (rounds_to_mono _ _ _ _ (percent_rounds t) (percent_rounds t')).
  apply Qdiv_100_le, H.
Qed.

Lemma percent_le_1 (t : decimal) :
  dec_value t <= 100 -> dec_value (t / of_int 100)%dec <= 1.
Proof.
  intros H. apply (rounds_to_mono _ _ _ _ (percent_rounds t) rounds_to_one).
  apply Qle_shift_div_r; [reflexivity | lra].
Qed.

(** A tax of at most 28 digits is divided by 100 without rounding. *)
Lemma percent_exact (t : decimal) :
  (ndigits (coef t) <= 28)%Z ->
  dec_value (t / of_int 100)%dec == dec_value t / 100.
Proof.
  intros H. apply (rounds_to_unique (dec_value t / 100)); [apply percent_rounds | ].
  apply (rounds_to_comp (dec_value (Dec (coef t) (dexp t - 2))) _
           (dec_value (Dec (coef t) (dexp t - 2)))).
  - unfold dec_value. cbn [coef dexp]. rewrite p10_sub.
    change (10 ^ 2) with 100. field.
  - unfold dec_value. cbn [coef dexp]. rewrite p10_sub.
    change (10 ^ 2) with 100. field.
  - apply rounds_to_exact. exact H.
Qed.

Lemma tax_factor_rounds (t : decimal) :
  rounds_to (1 - dec_value (t / of_int 100)%dec) (dec_value (tax_factor t)).
Proof.
  unfold tax_factor.
  eapply rounds_to_comp; [ | reflexivity | apply dsub_rounds].
  rewrite value_of_int. reflexivity.
Qed.

Lemma tax_factor_nonneg (t : decimal) :
  dec_value t <= 100 -> 0 <= dec_value (tax_factor t).
Proof.
  intros H. apply (rounds_to_nonneg _ _ (tax_factor_rounds t)).
  pose proof (percent_le_1 t H). lra.
Qed.

Lemma tax_factor_anti (t t' : decimal) :
  dec_value t <= dec_value t' ->
  dec_value (tax_factor t') <= dec_value (tax_factor t).
Proof.
  intros H.
  apply (rounds_to_mono _ _ _ _ (tax_factor_rounds t') (tax_factor_rounds t)).
  pose proof (percent_mono t t' H). lra.
Qed.

Lemma tax_factor_pos (t : decimal) :
  dec_value t < 100 -> (ndigits (coef t) <= 28)%Z -> 0 < dec_value (tax_factor t).
Proof.
  intros H Hd. apply (rounds_to_sign _ _ (tax_factor_rounds t)).
  rewrite (percent_exact t Hd).
  assert (dec_value t / 100 < 1).
  { apply Qlt_shift_div_r; [reflexivity | lra]. }
  lra.
Qed.

(** C6 as the specification words it, at a balance [B], a rate [r] and a
    tax [t]: the accrual is strictly positive and grows strictly with the
    balance and with the rate. *)
Definition accrual_strict_at (B r t : decimal) : Prop :=
  0 < dec_value (calculate_daily_interest B r t)
  /\ (forall B', dec_value B < dec_value B' ->
        dec_value (calculate_daily_interest B r t)
        < dec_value (calculate_daily_interest B' r t))
  /\ (forall r', dec_value r < dec_value r' ->
        dec_value (calculate_daily_interest B r t)
        < dec_value (calculate_daily_interest B r' t)).




(** A rational number is representable when some decimal of at most 28
    digits has it as value. *)
Definition representable (x : Q) : Prop :=
  exists d : decimal, (ndigits (coef d) <= 28)%Z /\ dec_value d == x.

Lemma rounds_to_representable (x y : Q) :
  rounds_to x y -> representable x -> y == x.
Proof.
  intros H (d & Hd & E). apply (rounds_to_unique x); [exact H | ].
  apply (rounds_to_comp (dec_value d) _ (dec_value d)); [exact E | exact E | ].
  apply rounds_to_exact, Hd.
Qed.

(** C4 as the specification words it, on the values of the decimals: the
    day accrual is exactly [B * r * (1 - t / 100)]. *)
Definition day_accrual_as_stated (B r t : decimal) : Prop :=
  dec_value (calculate_daily_interest B r t)
  == dec_value B * dec_value r * (1 - dec_value t / 100).



